(** * FCCollaboration: the ordered task runners of Documents/AsyncRunner.py

    A shallow embedding of the cooperative runners (OrderedRunner,
    BatchedOrderedRunner, DocumentBatchedOrderedRunner), the DocumentRunner
    registry and the synchronisers, followed by the properties the
    specification states about them.

    Conventions of the embedding.
    - asyncio is single threaded: a coroutine runs without interruption from
      one suspension point to the next.  The main task of a runner is
      therefore modelled as a resumable machine: [coroutine] records the
      [await] the task is suspended in, and [__run] executes one whole
      uninterrupted stretch of the loop body.
    - The callables handed to [run] are opaque user code.  A callable is
      described by its [__name__] and by what calling it yields ([outcome]).
      Every [await] of a task is a suspension point, so that other code may
      call [run], [queued] and so on while a task is in flight.
    - An [asyncio.Event] without recorded waiters is its boolean flag, and
      waiting on an asserted flag returns without suspending.
    - CancelledError is not an [Exception] (Python 3.8 and later), so the
      [except Exception] of the loops lets a cancellation through.
    - asyncio.wait_for is the one of Python 3.8 to 3.11.  A bound that is
      not positive cancels the wait before it has started: TimeoutError,
      whatever the awaited flag says.  Under a positive bound the wait
      runs as a task of its own, which the event loop starts behind the
      tasks that are ready already.
    - What passes while a caller waits is a schedule of actions of the
      environment.  OrderedRunner.waitTillCloseout is handed the actions
      that take place before its timer fires, however many they are.  The
      synchronisers and BatchedOrderedRunner count a positive bound in
      turns: a wait of [timeout] lets [timeout] actions happen. *)

From stdpp Require Import gmap strings list.


(** ** Python values, callables, observable effects *)

Inductive pyval :=
| PyNone
| PyInt (z : Z)
| PyStr (s : string).

(** What a call produces: it returns, it raises an exception whose text is
    [msg], or it never finishes. *)
Inductive outcome :=
| Returns
| Raises (msg : string)
| Hangs.

(** [Fn name res] is a function supplied by a caller of [run]; [Wrapper fnc
    handler] is the closure [wrapper] that DocumentBatchedOrderedRunner.run
    builds (lines 336-338): [fnc(args); await handler()]. *)
Inductive callable :=
| Fn (name : string) (res : outcome)
| Wrapper (fnc : callable) (handler : callable).

Definition __name__ (c : callable) : string :=
  match c with
  | Fn name _ => name
  | Wrapper _ _ => "wrapper"
  end.

(** A queue entry is the tuple [(fnc, args)]. *)
Definition Task : Type := callable * list pyval.

Inductive event :=
| EvCall (t : Task)                  (* fnc(args) called, result not awaited *)
| EvAwait (t : Task)                 (* await fnc(args) entered *)
| EvReturn (t : Task)                (* the awaited call returned *)
| EvRaise (t : Task) (msg : string). (* the awaited call raised *)

(** [fnc(args)] without [await].  Calling the [async def wrapper] only
    builds a coroutine object, nothing of its body runs. *)
Definition call (c : callable) : outcome :=
  match c with
  | Fn _ res => res
  | Wrapper _ _ => Returns
  end.

(** [await fnc(args)]: the final outcome. *)
Fixpoint await_result (c : callable) : outcome :=
  match c with
  | Fn _ res => res
  | Wrapper fnc handler =>
      match call fnc with
      | Returns => await_result handler
      | o => o
      end
  end.

(** [await fnc(args)]: the effects up to the suspension of the call. *)
Fixpoint await_enter (c : callable) (args : list pyval) : list event :=
  match c with
  | Fn _ _ => [EvAwait (c, args)]
  | Wrapper fnc handler =>
      EvAwait (c, args) :: EvCall (fnc, args) ::
      match call fnc with
      | Returns => await_enter handler []
      | _ => []
      end
  end.

Definition leave_event (t : Task) (o : outcome) : list event :=
  match o with
  | Returns => [EvReturn t]
  | Raises msg => [EvRaise t msg]
  | Hangs => []
  end.

(** [await fnc(args)]: the effects from its resumption to its end. *)
Fixpoint await_leave (c : callable) (args : list pyval) : list event :=
  match c with
  | Fn _ res => leave_event (c, args) res
  | Wrapper fnc handler =>
      match call fnc with
      | Returns => await_leave handler []
      | _ => []
      end ++ leave_event (c, args) (await_result c)
  end.

(** Everything one awaited task does, from start to end. *)
Definition block (t : Task) : list event :=
  await_enter t.1 t.2 ++ await_leave t.1 t.2.

(** f-string rendering of a bool and of a list of names. *)
Definition str_bool (b : bool) : string := if b then "True" else "False".

Definition newline : string := String (Ascii.ascii_of_nat 10) EmptyString.

Fixpoint join (sep : string) (l : list string) : string :=
  match l with
  | [] => ""
  | [s] => s
  | s :: l' => s +:+ sep +:+ join sep l'
  end.

Definition repr_names (l : list string) : string :=
  "[" +:+ join ", " (map (fun s => "'" +:+ s +:+ "'") l) +:+ "]".

(** ** OrderedRunner (lines 113-189) *)

Module OrderedRunner.

(** Where the main task [self.__maintask] stands. *)
Inductive coroutine :=
| Created                 (* scheduled by ensure_future, body not entered *)
| AtWait                  (* line 154: await self.__syncEvent.wait() *)
| AtTask (task : Task)    (* line 161: await task[0](args) *)
| Cancelled.              (* ended by CancelledError *)

Record t := mk {
  logger : list string;      (* texts given to logger.error, oldest first *)
  tasks : list Task;
  syncEvent : bool;
  finishEvent : bool;
  current : string;
  shutdown : option bool;    (* the attribute does not exist before close *)
  maintask : coroutine;
  effects : list event;      (* ghost: what the awaited tasks did so far *)
}.

Definition __init__ (logger : list string) : t :=
  mk logger [] false false "" None Created [].

Definition set_tasks (q : list Task) (r : t) : t :=
  mk (logger r) q (syncEvent r) (finishEvent r) (current r) (shutdown r)
     (maintask r) (effects r).

Definition set_syncEvent (b : bool) (r : t) : t :=
  mk (logger r) (tasks r) b (finishEvent r) (current r) (shutdown r)
     (maintask r) (effects r).

Definition set_finishEvent (b : bool) (r : t) : t :=
  mk (logger r) (tasks r) (syncEvent r) b (current r) (shutdown r)
     (maintask r) (effects r).

Definition set_maintask (c : coroutine) (r : t) : t :=
  mk (logger r) (tasks r) (syncEvent r) (finishEvent r) (current r)
     (shutdown r) c (effects r).

Definition set_shutdown (b : bool) (r : t) : t :=
  mk (logger r) (tasks r) (syncEvent r) (finishEvent r) (current r)
     (Some b) (maintask r) (effects r).

Definition log_error (msg : string) (r : t) : t :=
  mk (logger r ++ [msg]) (tasks r) (syncEvent r) (finishEvent r) (current r)
     (shutdown r) (maintask r) (effects r).

Definition emit (evs : list event) (r : t) : t :=
  mk (logger r) (tasks r) (syncEvent r) (finishEvent r) (current r)
     (shutdown r) (maintask r) (effects r ++ evs).

(** lines 177-180 *)
Definition run (fnc : callable) (args : list pyval) (r : t) : t :=
  set_syncEvent true (set_tasks (tasks r ++ [(fnc, args)]) r).

(** lines 183-185 *)
Definition queued (r : t) : list string :=
  map (fun task : Task => __name__ task.1) (tasks r).

(** lines 188-189; [excecute] is the bound method [syncer.excecute]. *)
Definition sync (excecute : callable) (r : t) : t := run excecute [] r.

(** lines 160-161: note the name, enter the await. *)
Definition enter_task (task : Task) (r : t) : t :=
  mk (logger r) (tasks r) (syncEvent r) (finishEvent r) (__name__ task.1)
     (shutdown r) (AtTask task) (effects r ++ await_enter task.1 task.2).

(** One pass from the top of [try] (line 154) to the next suspension.
    With the wake signal unset the task suspends in line 154.  With it set
    and an empty queue [pop(0)] raises IndexError, the handler of line 170
    logs it and the [while True] starts over at once: [fuel] bounds the
    number of such passes, [None] says that no suspension point was
    reached within it. *)
Fixpoint loop (fuel : nat) (r : t) : option t :=
  if syncEvent r then
    match tasks r with
    | task :: rest =>
        Some (enter_task task (set_tasks rest (set_finishEvent false r)))
    | [] =>
        match fuel with
        | 0 => None
        | S fuel' =>
            loop fuel' (log_error "pop from empty list"
                                  (set_finishEvent false r))
        end
    end
  else Some (set_maintask AtWait r).

(** The event loop resumes the main task (lines 149-171). *)
Definition __run (fuel : nat) (r : t) : option t :=
  match maintask r with
  | Created => loop fuel (set_finishEvent true r)
  | AtWait => loop fuel r
  | AtTask task =>
      match await_result task.1 with
      | Hangs => Some r
      | Returns =>
          let r1 := emit (await_leave task.1 task.2) r in
          match tasks r1 with
          | next :: rest => Some (enter_task next (set_tasks rest r1))
          | [] => loop fuel (set_syncEvent false (set_finishEvent true r1))
          end
      | Raises msg =>
          loop fuel (log_error msg (emit (await_leave task.1 task.2) r))
      end
  | Cancelled => Some r
  end.

(** What the rest of the program does in one scheduler turn. *)
Inductive action :=
| ARun (task : Task)     (* somebody calls run(fnc, args) *)
| AResume.               (* the event loop resumes the main task *)

Definition step (fuel : nat) (a : action) (r : t) : option t :=
  match a with
  | ARun task => Some (run task.1 task.2 r)
  | AResume => __run fuel r
  end.

Fixpoint exec (fuel : nat) (sched : list action) (r : t) : option t :=
  match sched with
  | [] => Some r
  | a :: sched' => r' ← step fuel a r; exec fuel sched' r'
  end.

Definition done (r : t) : bool :=
  match maintask r with
  | Cancelled => true
  | _ => false
  end.

(** The f-string of line 134. *)
Definition closeout_message (r : t) : string :=
  "Runner closeout timed out while working (" +:+ str_bool (negb (done r))
    +:+ ") on " +:+ current r +:+ ". Remaining: " +:+ newline
    +:+ repr_names (queued r).

(** Whether the event loop holds the main task in its ready queue:
    scheduled by ensure_future and not started yet, or woken in line 154 by
    a set of the wake signal.  (When an awaited task completes is for the
    environment to say: that wake-up is an [AResume] of the schedule.) *)
Definition woken (r : t) : bool :=
  match maintask r with
  | Created => true
  | AtWait => syncEvent r
  | _ => false
  end.

(** wait_for turns the awaited [self.__finishEvent.wait()] into a task of
    its own and suspends the caller.  The event loop starts that task
    behind what is ready already, so a woken main task runs its stretch
    before the finish signal is read for the first time. *)
Definition settle (fuel : nat) (r : t) : option t :=
  if woken r then __run fuel r else Some r.

Inductive wait_result :=
| Returned
| TimeoutError.

(** The wait on the finish signal under a positive bound.  [sched] is what
    the environment does before the timer fires; the wait ends as soon as
    the signal is found asserted at a suspension point, and the unused
    rest of [sched] is handed back. *)
Fixpoint await_finish (fuel : nat) (sched : list action) (r : t)
  : option (wait_result * t * list action) :=
  if finishEvent r then Some (Returned, r, sched)
  else
    match sched with
    | [] => Some (TimeoutError, r, [])
    | a :: sched' => r' ← step fuel a r; await_finish fuel sched' r'
    end.

(** asyncio.wait_for(self.__finishEvent.wait(), timeout).  With a bound
    that is not positive the wait is cancelled before it has started, so
    the outcome is TimeoutError whatever the finish signal says. *)
Definition wait_for (fuel timeout : nat) (sched : list action) (r : t)
  : option (wait_result * t * list action) :=
  r0 ← settle fuel r;
  match timeout with
  | 0 => Some (TimeoutError, r0, sched)
  | S _ => await_finish fuel sched r0
  end.

(** lines 128-134; [None] when the main task spins and the caller is never
    resumed. *)
Definition waitTillCloseout (fuel timeout : nat) (sched : list action) (r : t)
  : option (t * list action) :=
  '(res, r1, rest) ← wait_for fuel timeout sched r;
  match res with
  | Returned => Some (r1, rest)
  | TimeoutError => Some (log_error (closeout_message r1) r1, rest)
  end.

(** lines 141-145: cancel() throws CancelledError into the main task at
    its suspension point; [except Exception] does not catch it, so the
    task ends cancelled and [await self.__maintask] re-raises it into the
    [except asyncio.CancelledError] of close. *)
Definition cancel (r : t) : t :=
  match maintask r with
  | Cancelled => r
  | _ => set_maintask Cancelled r
  end.

(** lines 137-147 *)
Definition close (fuel : nat) (sched : list action) (r : t)
  : option (t * list action) :=
  '(r1, rest) ← waitTillCloseout fuel 10 sched r;
  Some (set_finishEvent true (cancel (set_shutdown true r1)), rest).

Definition submitted (sched : list action) : list Task :=
  flat_map (fun a => match a with ARun task => [task] | AResume => [] end)
           sched.

Definition in_flight (r : t) : list Task :=
  match maintask r with
  | AtTask task => [task]
  | _ => []
  end.

End OrderedRunner.

(** ** BatchedOrderedRunner (lines 192-312) *)

Module BatchedOrderedRunner.

Inductive coroutine :=
| Created
| AtWait                    (* line 250 *)
| AtTask (task : Task)      (* line 284: await task[0](args) *)
| InCall (task : Task)      (* line 268: the plain call does not return *)
| AtHandler (handler : callable) (batchtask : option Task)
                            (* line 276, [batchtask] already popped *)
| Cancelled
| Failed (exn : string).    (* ended by an exception that left __run *)

Record t := mk {
  logger : list string;
  tasks : list Task;
  syncEvent : bool;
  finishEvent : bool;
  batchHandler : gmap string callable;
  current : string;
  shutdown : bool;
  maintask : coroutine;
  effects : list event;
}.

Definition __init__ (logger : list string) : t :=
  mk logger [] false false ∅ "" false Created [].

Definition set_tasks (q : list Task) (r : t) : t :=
  mk (logger r) q (syncEvent r) (finishEvent r) (batchHandler r) (current r)
     (shutdown r) (maintask r) (effects r).

Definition set_syncEvent (b : bool) (r : t) : t :=
  mk (logger r) (tasks r) b (finishEvent r) (batchHandler r) (current r)
     (shutdown r) (maintask r) (effects r).

Definition set_finishEvent (b : bool) (r : t) : t :=
  mk (logger r) (tasks r) (syncEvent r) b (batchHandler r) (current r)
     (shutdown r) (maintask r) (effects r).

Definition set_current (name : string) (r : t) : t :=
  mk (logger r) (tasks r) (syncEvent r) (finishEvent r) (batchHandler r) name
     (shutdown r) (maintask r) (effects r).

Definition set_maintask (c : coroutine) (r : t) : t :=
  mk (logger r) (tasks r) (syncEvent r) (finishEvent r) (batchHandler r)
     (current r) (shutdown r) c (effects r).

Definition emit (evs : list event) (r : t) : t :=
  mk (logger r) (tasks r) (syncEvent r) (finishEvent r) (batchHandler r)
     (current r) (shutdown r) (maintask r) (effects r ++ evs).

(** lines 214-215 *)
Definition registerBatchHandler (fncName : string) (batchFnc : callable)
    (r : t) : t :=
  mk (logger r) (tasks r) (syncEvent r) (finishEvent r)
     (<[fncName := batchFnc]> (batchHandler r)) (current r) (shutdown r)
     (maintask r) (effects r).

(** lines 302-305 *)
Definition run (fnc : callable) (args : list pyval) (r : t) : t :=
  set_syncEvent true (set_tasks (tasks r ++ [(fnc, args)]) r).

(** lines 307-309 *)
Definition queued (r : t) : list string :=
  map (fun task : Task => __name__ task.1) (tasks r).

Definition attribute_error : string :=
  "'BatchedOrderedRunner' object has no attribute 'logger'".

(** lines 295-296.  The handler evaluates [self.logger]; the constructor
    stored the sink under the private name [self.__logger] and the class
    has no attribute [logger], so the handler itself raises AttributeError.
    That exception leaves the [while True] and ends the main task; nothing
    has been logged. *)
Definition handle_exception (e : string) (r : t) : t :=
  set_maintask (Failed attribute_error) r.

Inductive batch_exit :=
| BatchEnd (batchtask : option Task)   (* the inner while was left *)
| BatchRaise (msg : string)            (* a batched call raised *)
| BatchHang (task : Task).             (* a batched call never returned *)

(** lines 266-273: the inner while, entered with [batchtask] popped and [q]
    the queue.  Returns how it ended, the queue left and the calls made. *)
Fixpoint batch (cur : string) (batchtask : Task) (q : list Task)
    (evs : list event) {struct q} : batch_exit * list Task * list event :=
  let evs := evs ++ [EvCall batchtask] in
  match call batchtask.1 with
  | Raises msg => (BatchRaise msg, q, evs)
  | Hangs => (BatchHang batchtask, q, evs)
  | Returns =>
      match q with
      | [] => (BatchEnd None, [], evs)
      | next :: q' =>
          if decide (__name__ next.1 = cur)
          then batch cur next q' evs
          else (BatchEnd (Some next), q', evs)
      end
  end.

(** lines 259-284: the body of the outer while for a popped [task], up to
    its await. *)
Definition work (task : Task) (r : t) : t :=
  let r := set_current (__name__ task.1) r in
  match batchHandler r !! current r with
  | Some handler =>
      let '(exit, q, evs) := batch (current r) task (tasks r) [] in
      let r := emit evs (set_tasks q r) in
      match exit with
      | BatchEnd batchtask =>
          emit (await_enter handler [])
               (set_maintask (AtHandler handler batchtask) r)
      | BatchRaise msg => handle_exception msg r
      | BatchHang task' => set_maintask (InCall task') r
      end
  | None =>
      emit (await_enter task.1 task.2) (set_maintask (AtTask task) r)
  end.

(** lines 248-256: from the top of [try] to the first await. *)
Definition top (r : t) : t :=
  if syncEvent r then
    match tasks r with
    | task :: rest => work task (set_tasks rest (set_finishEvent false r))
    | [] => handle_exception "pop from empty list" (set_finishEvent false r)
    end
  else set_maintask AtWait r.

(** lines 290-292, then the next pass of [while True]. *)
Definition finish (r : t) : t :=
  top (set_syncEvent false (set_finishEvent true (set_current "" r))).

(** The event loop resumes the main task (lines 241-296). *)
Definition __run (r : t) : t :=
  match maintask r with
  | Created => top (set_finishEvent true r)
  | AtWait => top r
  | AtTask task =>
      match await_result task.1 with
      | Hangs => r
      | Returns =>
          let r1 := emit (await_leave task.1 task.2) r in
          match tasks r1 with
          | next :: rest => work next (set_tasks rest r1)
          | [] => finish r1
          end
      | Raises msg =>
          handle_exception msg (emit (await_leave task.1 task.2) r)
      end
  | AtHandler handler batchtask =>
      match await_result handler with
      | Hangs => r
      | Returns =>
          let r1 := emit (await_leave handler []) r in
          match batchtask with
          | Some task => work task r1
          | None => finish r1
          end
      | Raises msg => handle_exception msg (emit (await_leave handler []) r)
      end
  | InCall _ | Cancelled | Failed _ => r
  end.

Inductive action :=
| ARun (task : Task)
| AResume.

Definition step (a : action) (r : t) : t :=
  match a with
  | ARun task => run task.1 task.2 r
  | AResume => __run r
  end.

Definition exec (sched : list action) (r : t) : t :=
  foldl (fun r a => step a r) r sched.

Definition submitted (sched : list action) : list Task :=
  flat_map (fun a => match a with ARun task => [task] | AResume => [] end)
           sched.

(** lines 311-312 *)
Definition sync (excecute : callable) (r : t) : t := run excecute [] r.

Definition set_shutdown (b : bool) (r : t) : t :=
  mk (logger r) (tasks r) (syncEvent r) (finishEvent r) (batchHandler r)
     (current r) b (maintask r) (effects r).

Definition log_error (msg : string) (r : t) : t :=
  mk (logger r ++ [msg]) (tasks r) (syncEvent r) (finishEvent r)
     (batchHandler r) (current r) (shutdown r) (maintask r) (effects r).

Definition done (r : t) : bool :=
  match maintask r with
  | Cancelled | Failed _ => true
  | _ => false
  end.

(** The main task sits in a plain call that does not return: the thread
    never gets back to the event loop and no other coroutine advances. *)
Definition blocked (r : t) : bool :=
  match maintask r with
  | InCall _ => true
  | _ => false
  end.

(** The f-string of line 224. *)
Definition closeout_message (r : t) : string :=
  "Runner closeout timed out while working (" +:+ str_bool (negb (done r))
    +:+ ") on " +:+ current r +:+ ". Remaining: " +:+ newline
    +:+ repr_names (queued r).

(** Whether the event loop holds the main task in its ready queue (see
    OrderedRunner.woken). *)
Definition woken (r : t) : bool :=
  match maintask r with
  | Created => true
  | AtWait => syncEvent r
  | _ => false
  end.

(** A woken main task runs its stretch before the wait that wait_for has
    queued behind it reads the finish signal. *)
Definition settle (r : t) : t :=
  if woken r then __run r else r.

(** The wait on the finish signal under a positive bound of [timeout]
    turns; [None] when the caller is never resumed. *)
Fixpoint await_finish (timeout : nat) (sched : list action) (r : t)
  : option (t * list action) :=
  if blocked r then None
  else if finishEvent r then Some (r, sched)
  else
    match timeout with
    | 0 => Some (log_error (closeout_message r) r, sched)
    | S timeout' =>
        match sched with
        | [] => await_finish timeout' [] r
        | a :: sched' => await_finish timeout' sched' (step a r)
        end
    end.

(** lines 218-224.  With a bound that is not positive wait_for cancels the
    wait before it has started: the timeout line is logged whatever the
    finish signal says. *)
Definition waitTillCloseout (timeout : nat) (sched : list action) (r : t)
  : option (t * list action) :=
  let r0 := settle r in
  match timeout with
  | 0 =>
      if blocked r0 then None
      else Some (log_error (closeout_message r0) r0, sched)
  | S _ => await_finish timeout sched r0
  end.

Inductive close_result :=
| Closed (r : t) (rest : list action)
| CloseRaised (exn : string) (r : t) (rest : list action).

(** lines 227-238.  On a live main task cancel() and the await end it with
    CancelledError, which close swallows.  On a main task that has ended
    with an exception cancel() does nothing and [await self.__maintask]
    re-raises that exception, which is not a CancelledError: it leaves
    close before line 238. *)
Definition close (sched : list action) (r : t) : option close_result :=
  '(r1, rest) ← waitTillCloseout 10 sched r;
  let r2 := set_shutdown true r1 in
  match maintask r2 with
  | Cancelled => Some (Closed (set_finishEvent true r2) rest)
  | Failed exn => Some (CloseRaised exn r2 rest)
  | _ => Some (Closed (set_finishEvent true (set_maintask Cancelled r2)) rest)
  end.

End BatchedOrderedRunner.

(** ** DocumentBatchedOrderedRunner (lines 315-362)

    The facade holds a reference to the shared runner; a reference is an
    index into the store of OrderedRunner objects. *)

Module DocumentBatchedOrderedRunner.

Record t := mk {
  docRunner : nat;
  batchHandler : gmap string callable;
}.

(** lines 319-321 *)
Definition __init__ (runner : nat) : t := mk runner ∅.

(** lines 324-325 *)
Definition registerBatchHandler (fncName : string) (batchFnc : callable)
    (self : t) : t :=
  mk (docRunner self) (<[fncName := batchFnc]> (batchHandler self)).

(** lines 328-343 *)
Definition run (self : t) (fnc : callable) (args : list pyval)
    (store : list OrderedRunner.t) : list OrderedRunner.t :=
  match batchHandler self !! __name__ fnc with
  | Some handler =>
      alter (OrderedRunner.run (Wrapper fnc handler) args)
            (docRunner self) store
  | None => alter (OrderedRunner.run fnc args) (docRunner self) store
  end.

(** lines 346-348 *)
Definition queued (self : t) (store : list OrderedRunner.t)
  : option (list string) :=
  OrderedRunner.queued <$> store !! docRunner self.

End DocumentBatchedOrderedRunner.

(** ** DocumentRunner (lines 90-109)

    The two class attributes, with the objects they and their callers refer
    to: the runners created so far and the facades handed out so far. *)

Module DocumentRunner.

Record t := mk {
  store : list OrderedRunner.t;
  facades : list DocumentBatchedOrderedRunner.t;
  __sender : gmap string nat;
  __receiver : gmap string nat;
}.

Definition empty : t := mk [] [] ∅ ∅.

(** lines 98-102; returns the reference of the new facade *)
Definition getSenderRunner (docId : string) (logger : list string) (w : t)
  : t * nat :=
  let '(store1, sender1, runner) :=
    match __sender w !! docId with
    | Some runner => (store w, __sender w, runner)
    | None =>
        (store w ++ [OrderedRunner.__init__ logger],
         <[docId := length (store w)]> (__sender w),
         length (store w))
    end in
  (mk store1 (facades w ++ [DocumentBatchedOrderedRunner.__init__ runner])
      sender1 (__receiver w),
   length (facades w)).

(** lines 105-109 *)
Definition getReceiverRunner (docId : string) (logger : list string) (w : t)
  : t * nat :=
  let '(store1, receiver1, runner) :=
    match __receiver w !! docId with
    | Some runner => (store w, __receiver w, runner)
    | None =>
        (store w ++ [OrderedRunner.__init__ logger],
         <[docId := length (store w)]> (__receiver w),
         length (store w))
    end in
  (mk store1 (facades w ++ [DocumentBatchedOrderedRunner.__init__ runner])
      (__sender w) receiver1,
   length (facades w)).

Inductive role := Sender | Receiver.

Global Instance role_eq_dec : EqDecision role.
Proof. solve_decision. Defined.

Definition get (ro : role) (docId : string) (logger : list string) (w : t)
  : t * nat :=
  match ro with
  | Sender => getSenderRunner docId logger w
  | Receiver => getReceiverRunner docId logger w
  end.

(** A sequence of requests, each [(role, docId, logger)]; returns the
    facade references in request order. *)
Fixpoint gets (reqs : list (role * string * list string)) (w : t)
  : t * list nat :=
  match reqs with
  | [] => (w, [])
  | (ro, docId, logger) :: reqs' =>
      let '(w1, f) := get ro docId logger w in
      let '(w2, fs) := gets reqs' w1 in
      (w2, f :: fs)
  end.

(** The runner a facade reference leads to. *)
Definition underlying (w : t) (f : nat) : option nat :=
  DocumentBatchedOrderedRunner.docRunner <$> facades w !! f.

End DocumentRunner.

(** ** asyncio.Event with its waiters, as the synchronisers use it *)

Module Event.

Record t := mk {
  value : bool;
  waiters : list nat;   (* the callers suspended in wait(), oldest first *)
}.

Definition __init__ : t := mk false [].

(** set(): assert the flag and wake every waiter; returns those woken. *)
Definition set (e : t) : t * list nat := (mk true [], waiters e).

Definition clear (e : t) : t := mk false (waiters e).

(** wait() called by [caller]: [true] when it returns at once. *)
Definition wait (caller : nat) (e : t) : t * bool :=
  if value e then (e, true) else (mk false (waiters e ++ [caller]), false).

End Event.

(** ** AcknowledgeSyncer (lines 38-53) *)

Module AcknowledgeSyncer.

Record t := mk {
  count : Z;
  event : bool;
}.

(** lines 43-45 *)
Definition __init__ (num : Z) : t := mk num false.

(** lines 47-50 *)
Definition excecute (s : t) : t :=
  let count' := (count s - 1)%Z in
  mk count' (if decide (count' ≤ 0)%Z then true else event s).

Inductive action :=
| AExcecute     (* some runner executes the syncer *)
| AIdle.        (* a turn in which nothing touches the syncer *)

Global Instance action_eq_dec : EqDecision action.
Proof. solve_decision. Defined.

Definition step (a : action) (s : t) : t :=
  match a with
  | AExcecute => excecute s
  | AIdle => s
  end.

Definition exec (sched : list action) (s : t) : t :=
  foldl (fun s a => step a s) s sched.

(** How many times excecute has been called. *)
Definition executions (sched : list action) : nat :=
  length (filter (fun a => a = AExcecute) sched).

Inductive wait_result :=
| Returned
| TimeoutError.

(** The wait on the latch under a positive bound of [timeout] turns. *)
Fixpoint await_event (timeout : nat) (sched : list action) (s : t)
  : wait_result * t :=
  if event s then (Returned, s)
  else
    match timeout with
    | 0 => (TimeoutError, s)
    | S timeout' =>
        match sched with
        | [] => await_event timeout' [] s
        | a :: sched' => await_event timeout' sched' (step a s)
        end
    end.


End AcknowledgeSyncer.

(** ** BlockSyncer (lines 56-69) *)

Module BlockSyncer.

Record t := mk {
  event : Event.t;
  returned : list nat;   (* ghost: the excecute calls that have returned *)
}.

(** lines 59-60 *)
Definition __init__ : t := mk Event.__init__ [].

(** lines 62-63, called by [caller] *)
Definition excecute (caller : nat) (s : t) : t :=
  let '(e, ready) := Event.wait caller (event s) in
  mk e (if ready then returned s ++ [caller] else returned s).

(** lines 65-66 *)
Definition restart (s : t) : t :=
  let '(e, woken) := Event.set (event s) in
  mk e (returned s ++ woken).

(** lines 68-69 *)
Definition asyncRestart (s : t) : t := restart s.

Inductive action :=
| AExcecute (caller : nat)
| ARestart
| AAsyncRestart.

Definition step (a : action) (s : t) : t :=
  match a with
  | AExcecute caller => excecute caller s
  | ARestart => restart s
  | AAsyncRestart => asyncRestart s
  end.

Definition exec (acts : list action) (s : t) : t :=
  foldl (fun s a => step a s) s acts.

Definition suspended (s : t) : list nat := Event.waiters (event s).

Definition latch (s : t) : bool := Event.value (event s).

End BlockSyncer.

(** ** Invariants of the OrderedRunner loop *)

(** The submissions [sub] split into the tasks already finished, the one in
    flight and the queue, and the effects seen so far are the finished
    tasks' blocks, in that order, followed by the start of the one in
    flight. *)
Definition ordered_inv (sub : list Task) (r : OrderedRunner.t) : Prop :=
  ∃ finished : list Task,
    sub = finished ++ OrderedRunner.in_flight r ++ OrderedRunner.tasks r ∧
    OrderedRunner.effects r =
      flat_map block finished ++
      flat_map (fun t : Task => await_enter t.1 t.2) (OrderedRunner.in_flight r).

(** The wake signal is asserted whenever work is queued or in flight. *)
Definition wake_inv (r : OrderedRunner.t) : Prop :=
  match OrderedRunner.maintask r with
  | OrderedRunner.AtTask _ => OrderedRunner.syncEvent r = true
  | OrderedRunner.Cancelled => False
  | _ => OrderedRunner.syncEvent r = true ↔ OrderedRunner.tasks r ≠ []
  end.

(** The closeout wait as the specification words it, for a wait during
    which [sched] passes before the bound expires and the main task keeps
    reaching its suspension points.  [r0] is the runner when the wait
    begins to watch it.  First half: when the queue does not drain, that is
    when at every turn something is queued or in flight, the call returns
    having logged the closeout line.  Second half: when the runner is Idle
    (the finish signal is asserted) at some turn, the call returns the
    runner as it finds it, with nothing logged. *)
Definition closeout_claim (fuel timeout : nat)
    (sched : list OrderedRunner.action) (r : OrderedRunner.t) : Prop :=
  ∀ r0 rN,
    OrderedRunner.settle fuel r = Some r0 →
    OrderedRunner.exec fuel sched r0 = Some rN →
    ((∀ k rk, k ≤ length sched →
              OrderedRunner.exec fuel (take k sched) r0 = Some rk →
              OrderedRunner.in_flight rk ++ OrderedRunner.tasks rk ≠ []) →
     ∃ r' rest rT,
       OrderedRunner.waitTillCloseout fuel timeout sched r = Some (r', rest) ∧
       OrderedRunner.logger r'
       = OrderedRunner.logger rT ++ [OrderedRunner.closeout_message rT]) ∧
    (∀ k rk, k ≤ length sched →
             OrderedRunner.exec fuel (take k sched) r0 = Some rk →
             OrderedRunner.finishEvent rk = true →
     ∃ j rj,
       j ≤ k ∧ OrderedRunner.exec fuel (take j sched) r0 = Some rj ∧
       OrderedRunner.waitTillCloseout fuel timeout sched r
       = Some (rj, drop j sched)).

(** The awaited task completes normally. *)
Definition returns (task : Task) : Prop := await_result task.1 = Returns.

(** ** What the specification says a batched drain does

    The queue is cut into its maximal runs of neighbours with the same
    identity.  A run whose identity has a handler is called entry by entry
    without awaiting, then the handler is awaited once; the entries of any
    other run are awaited one by one. *)

Fixpoint runs (q : list Task) : list (list Task) :=
  match q with
  | [] => []
  | t :: q' =>
      match runs q' with
      | (u :: g) :: gs =>
          if decide (__name__ t.1 = __name__ u.1)
          then (t :: u :: g) :: gs
          else [t] :: (u :: g) :: gs
      | _ => [[t]]
      end
  end.

Definition run_effects (handlers : gmap string callable) (g : list Task)
  : list event :=
  match g with
  | [] => []
  | t :: _ =>
      match handlers !! __name__ t.1 with
      | Some h => map EvCall g ++ block (h, [])
      | None => flat_map block g
      end
  end.

Definition batched_effects (handlers : gmap string callable) (q : list Task)
  : list event :=
  flat_map (run_effects handlers) (runs q).

(** A batchable task returns from its plain call and its handler completes;
    any other task completes when awaited. *)
Definition well_behaved (handlers : gmap string callable) (t : Task) : Prop :=
  match handlers !! __name__ t.1 with
  | Some h => call t.1 = Returns ∧ await_result h = Returns
  | None => await_result t.1 = Returns
  end.

(** ** Invariant of the DocumentRunner registry *)

Definition request : Type := DocumentRunner.role * string * list string.

Definition registry (ro : DocumentRunner.role) (w : DocumentRunner.t)
  : gmap string nat :=
  match ro with
  | DocumentRunner.Sender => DocumentRunner.__sender w
  | DocumentRunner.Receiver => DocumentRunner.__receiver w
  end.

(** The facade [f] handed out for [req] leads to the runner registered for
    the key and role of [req]. *)
Definition serves (w : DocumentRunner.t) (req : request) (f : nat) : Prop :=
  ∃ u, DocumentRunner.underlying w f = Some u ∧
       registry req.1.1 w !! req.1.2 = Some u.

Definition registry_inv (reqs : list request) (fs : list nat)
    (w : DocumentRunner.t) : Prop :=
  Forall2 (serves w) reqs fs ∧
  (∀ ro k u, registry ro w !! k = Some u →
     u < length (DocumentRunner.store w) ∧ ∃ l, (ro, k, l) ∈ reqs) ∧
  (∀ ro1 k1 ro2 k2 u,
     registry ro1 w !! k1 = Some u → registry ro2 w !! k2 = Some u →
     ro1 = ro2 ∧ k1 = k2).


(** The callers of excecute in a history of a BlockSyncer. *)
Definition callers (acts : list BlockSyncer.action) : list nat :=
  flat_map (fun a => match a with
                     | BlockSyncer.AExcecute c => [c]
                     | _ => []
                     end) acts.

Definition restarted (acts : list BlockSyncer.action) : Prop :=
  BlockSyncer.ARestart ∈ acts ∨ BlockSyncer.AAsyncRestart ∈ acts.

(** [r'] is [r] brought to rest after the further effects [evs]. *)
Definition batch_drained (r r' : BatchedOrderedRunner.t) (evs : list event)
  : Prop :=
  BatchedOrderedRunner.effects r' = BatchedOrderedRunner.effects r ++ evs ∧
  BatchedOrderedRunner.tasks r' = [] ∧
  BatchedOrderedRunner.maintask r' = BatchedOrderedRunner.AtWait ∧
  BatchedOrderedRunner.finishEvent r' = true ∧
  BatchedOrderedRunner.syncEvent r' = false ∧
  BatchedOrderedRunner.logger r' = BatchedOrderedRunner.logger r ∧
  BatchedOrderedRunner.batchHandler r' = BatchedOrderedRunner.batchHandler r.

Definition option_list {A} (o : option A) : list A :=
  match o with
  | Some a => [a]
  | None => []
  end.

(** The tasks used in the worked examples. *)
Module Samples.
Definition f : Task := (Fn "f" Returns, [PyInt 1]).
Definition g : Task := (Fn "g" Returns, [PyStr "a"; PyNone]).
Definition bad : Task := (Fn "bad" (Raises "boom"), []).
Definition forever : Task := (Fn "forever" Hangs, []).
Definition X : Task := (Fn "X" Returns, [PyInt 7]).
Definition Y : Task := (Fn "Y" Returns, []).
Definition H : callable := Fn "H" Returns.
End Samples.

(** ** Further definitions for the OrderedRunner loop *)

(** The awaited task ends, normally or with an exception. *)
Definition finishes (task : Task) : Prop := await_result task.1 ≠ Hangs.

(** The texts the handler of line 170 logs for the tasks that raise. *)
Definition failures (ts : list Task) : list string :=
  flat_map (fun t : Task => match await_result t.1 with
                            | Raises msg => [msg]
                            | _ => []
                            end) ts.

(** The finish signal tells whether the main task is at rest in line 154. *)
Definition rest_inv (r : OrderedRunner.t) : Prop :=
  OrderedRunner.finishEvent r
  = match OrderedRunner.maintask r with
    | OrderedRunner.AtWait => true
    | _ => false
    end.

(** ** Calls through facades *)

(** One call [self.run(fnc, args)] on a facade. *)
Definition facade_call : Type :=
  DocumentBatchedOrderedRunner.t * callable * list pyval.

(** The queue entry the call hands to the shared runner (lines 332-343). *)
Definition wrapped (c : facade_call) : Task :=
  match DocumentBatchedOrderedRunner.batchHandler c.1.1 !! __name__ c.1.2 with
  | Some handler => (Wrapper c.1.2 handler, c.2)
  | None => (c.1.2, c.2)
  end.

Definition facade_runs (calls : list facade_call)
    (store : list OrderedRunner.t) : list OrderedRunner.t :=
  foldl (fun st (c : facade_call) =>
           DocumentBatchedOrderedRunner.run c.1.1 c.1.2 c.2 st) store calls.

(** The calls made through facades of the runner [u]. *)
Definition calls_on (u : nat) (calls : list facade_call) : list facade_call :=
  filter (fun c : facade_call =>
            DocumentBatchedOrderedRunner.docRunner c.1.1 = u) calls.

(** ** AcknowledgeBlockSyncer (lines 72-88) *)

Module AcknowledgeBlockSyncer.

Record t := mk {
  Acknowledge : AcknowledgeSyncer.t;
  Block : BlockSyncer.t;
}.

(** lines 75-77 *)
Definition __init__ (num : Z) : t :=
  mk (AcknowledgeSyncer.__init__ num) BlockSyncer.__init__.

(** lines 79-81, called by [caller]: the acknowledge step never suspends,
    so the block step always follows it. *)
Definition excecute (caller : nat) (s : t) : t :=
  mk (AcknowledgeSyncer.excecute (Acknowledge s))
     (BlockSyncer.excecute caller (Block s)).

(** lines 86-87 *)
Definition restart (s : t) : t :=
  mk (Acknowledge s) (BlockSyncer.restart (Block s)).

Inductive action :=
| AExcecute (caller : nat)
| ARestart
| AIdle.

Definition step (a : action) (s : t) : t :=
  match a with
  | AExcecute caller => excecute caller s
  | ARestart => restart s
  | AIdle => s
  end.

Definition exec (acts : list action) (s : t) : t :=
  foldl (fun s a => step a s) s acts.

(** The wait on the acknowledge latch under a positive bound of
    [timeout] turns. *)
Fixpoint await_event (timeout : nat) (sched : list action) (s : t)
  : AcknowledgeSyncer.wait_result * t :=
  if AcknowledgeSyncer.event (Acknowledge s)
  then (AcknowledgeSyncer.Returned, s)
  else
    match timeout with
    | 0 => (AcknowledgeSyncer.TimeoutError, s)
    | S timeout' =>
        match sched with
        | [] => await_event timeout' [] s
        | a :: sched' => await_event timeout' sched' (step a s)
        end
    end.

(** wait_for(self.event.wait(), timeout) on the acknowledge latch; a bound
    that is not positive gives TimeoutError at once. *)
Definition wait_for (timeout : nat) (sched : list action) (s : t)
  : AcknowledgeSyncer.wait_result * t :=
  match timeout with
  | 0 => (AcknowledgeSyncer.TimeoutError, s)
  | S _ => await_event timeout sched s
  end.

(** lines 83-84: waitAllAchnowledge with its default bound of 60. *)
Definition wait (sched : list action) (s : t)
  : AcknowledgeSyncer.wait_result * t :=
  wait_for 60 sched s.

End AcknowledgeBlockSyncer.

(** ** DocumentHandler (Documents/Handler.py)

    The bookkeeping of Handler.py: the list of docmaps, the update
    callbacks and the observer gate.  FreeCAD documents, connections and
    callbacks are objects of other modules; they appear by reference.  The
    observers, the uuid and the collaboration path take no part in the
    functions modelled and are left out of the state. *)

Module DocumentHandler.

(** What a docmap entry holds: None, a string, or a reference. *)
Inductive pyobj :=
| ONone
| OStr (s : string)
| ORef (n : nat).

Global Instance pyobj_eq_dec : EqDecision pyobj.
Proof. solve_decision. Defined.

(** The dict with the keys "id", "status", "onlinedoc" and "fcdoc". *)
Record docmap := mkdoc {
  id : pyobj;
  status : pyobj;
  onlinedoc : pyobj;
  fcdoc : pyobj;
}.

Global Instance docmap_eq_dec : EqDecision docmap.
Proof. solve_decision. Defined.

(** [docmap[key]]; [None] stands for KeyError. *)
Definition item (key : string) (d : docmap) : option pyobj :=
  if decide (key = "id") then Some (id d)
  else if decide (key = "status") then Some (status d)
  else if decide (key = "onlinedoc") then Some (onlinedoc d)
  else if decide (key = "fcdoc") then Some (fcdoc d)
  else None.

Inductive exn :=
| KeyError (key : string)
| NoSuchDocument                (* Exception('no such document found') *)
| AttributeError (msg : string).

Inductive result (A : Type) :=
| Ok (a : A)
| Raise (e : exn).
Arguments Ok {A} a.
Arguments Raise {A} e.

(** [self.documents]: the list built by __init__, or the empty dict that
    removeConnection puts in its place (line 63). *)
Inductive pydocs :=
| DocList (l : list docmap)
| DocDict.

(** [for docmap in self.documents] *)
Definition entries (docs : pydocs) : list docmap :=
  match docs with
  | DocList l => l
  | DocDict => []
  end.

(** The coroutines handed to ensure_future. *)
Inductive future :=
| AsyncInit
| AsyncCloseDoc (doc : nat).

Record t := mk {
  documents : pydocs;
  updatefuncs : list nat;       (* the callbacks, by reference *)
  connection : option nat;
  dataservice : option nat;     (* the connection the service was built for *)
  blockObserver : bool;
  called : list nat;            (* ghost: callbacks invoked, oldest first *)
  stdout : list string;         (* ghost: lines printed *)
  futures : list future;        (* ghost: coroutines scheduled *)
}.

(** lines 36-43 *)
Definition __init__ : t := mk (DocList []) [] None None false [] [] [].

Definition set_documents (docs : pydocs) (s : t) : t :=
  mk docs (updatefuncs s) (connection s) (dataservice s) (blockObserver s)
     (called s) (stdout s) (futures s).

Definition print (line : string) (s : t) : t :=
  mk (documents s) (updatefuncs s) (connection s) (dataservice s)
     (blockObserver s) (called s) (stdout s ++ [line]) (futures s).

Definition ensure_future (f : future) (s : t) : t :=
  mk (documents s) (updatefuncs s) (connection s) (dataservice s)
     (blockObserver s) (called s) (stdout s) (futures s ++ [f]).

(** lines 52-58 *)
Definition setConnection (con : nat) (s : t) : t :=
  ensure_future AsyncInit
    (mk (documents s) (updatefuncs s) (Some con) (Some con) (blockObserver s)
        (called s) (stdout s) (futures s)).

(** lines 60-63 *)
Definition removeConnection (s : t) : t :=
  mk DocDict (updatefuncs s) None None (blockObserver s) (called s) (stdout s)
     (futures s).

(** lines 90-91 *)
Definition addUpdateFunc (func : nat) (s : t) : t :=
  mk (documents s) (updatefuncs s ++ [func]) (connection s) (dataservice s)
     (blockObserver s) (called s) (stdout s) (futures s).

(** lines 93-95; the callbacks are taken to return. *)
Definition update (s : t) : t :=
  mk (documents s) (updatefuncs s) (connection s) (dataservice s)
     (blockObserver s) (called s ++ updatefuncs s) (stdout s) (futures s).

(** lines 100-104 over the entries *)
Fixpoint find_docmap (key : string) (val : pyobj) (l : list docmap)
  : result docmap :=
  match l with
  | [] => Raise NoSuchDocument
  | d :: l' =>
      match item key d with
      | None => Raise (KeyError key)
      | Some v => if decide (v = val) then Ok d else find_docmap key val l'
      end
  end.

(** lines 97-104 *)
Definition getDocMap (key : string) (val : pyobj) (s : t) : result docmap :=
  find_docmap key val (entries (documents s)).

(** The argument of getOnlineDocument: a document, or a GUI document,
    which has the attribute ActiveView and leads to its document. *)
Inductive docarg :=
| AppDocument (doc : nat)
| GuiDocument (document : nat).

Fixpoint find_online (doc : pyobj) (l : list docmap) : pyobj :=
  match l with
  | [] => ONone
  | d :: l' => if decide (fcdoc d = doc) then onlinedoc d
               else find_online doc l'
  end.

(** lines 106-117 *)
Definition getOnlineDocument (arg : docarg) (s : t) : pyobj :=
  let doc := match arg with
             | AppDocument doc => doc
             | GuiDocument document => document
             end in
  find_online (ORef doc) (entries (documents s)).

(** lines 76-88.  [self.documents.append] exists on the list only. *)
Definition openFCDocument (doc : nat) (s : t) : result t :=
  match connection s with
  | None => Ok s
  | Some _ =>
      if blockObserver s then Ok s
      else
        match documents s with
        | DocDict =>
            Raise (AttributeError "'dict' object has no attribute 'append'")
        | DocList l =>
            let docmap := mkdoc ONone (OStr "local") ONone (ORef doc) in
            Ok (update (print "Call update!"
                          (set_documents (DocList (l ++ [docmap])) s)))
        end
  end.

(** lines 66-73 *)
Definition closeFCDocument (doc : nat) (s : t) : t :=
  match connection s with
  | None => s
  | Some _ =>
      if blockObserver s then s else ensure_future (AsyncCloseDoc doc) s
  end.

(** [list.remove(x)]: drop the first element equal to [x]. *)
Fixpoint remove_first (d : docmap) (l : list docmap) : list docmap :=
  match l with
  | [] => []
  | x :: l' => if decide (x = d) then l' else x :: remove_first d l'
  end.

(** lines 177-179, the body of [try]: [unload] and [call] are what the two
    awaited calls of the other modules do.  An attribute looked up on
    None raises AttributeError. *)
Definition disconnect (d : docmap) (unload call : outcome) (s : t) : outcome :=
  if decide (status d = OStr "shared") then
    match
      match onlinedoc d with
      | ORef _ => unload
      | ONone => Raises "'NoneType' object has no attribute 'asyncUnload'"
      | OStr _ => Raises "'str' object has no attribute 'asyncUnload'"
      end
    with
    | Returns =>
        match connection s with
        | Some _ => call
        | None => Raises "'NoneType' object has no attribute 'session'"
        end
    | o => o
    end
  else Returns.

(** How a coroutine of the handler stands: finished with a result, or
    suspended for good in an awaited call, with the state it has reached. *)
Inductive completion :=
| Finished (res : result t)
| Pending (s : t).

(** lines 172-185, run without other coroutines stepping in at its two
    awaits. *)
Definition asyncCloseDoc (doc : nat) (unload call : outcome) (s : t)
  : completion :=
  match getDocMap "fcdoc" (ORef doc) s with
  | Raise e => Finished (Raise e)
  | Ok d =>
      let s1 := set_documents
                  (DocList (remove_first d (entries (documents s)))) s in
      match disconnect d unload call s1 with
      | Returns => Finished (Ok (update s1))
      | Raises msg =>
          Finished
            (Ok (update (print ("Close document id error: " +:+ msg) s1)))
      | Hangs => Pending s1
      end
  end.

(** The operations a user of the handler performs, and the state each one
    leaves behind (the one at the raise when it raises). *)
Inductive op :=
| OpSetConnection (con : nat)
| OpRemoveConnection
| OpAddUpdateFunc (func : nat)
| OpOpen (doc : nat)
| OpClose (doc : nat)
| OpAsyncClose (doc : nat) (unload call : outcome).

Definition apply (o : op) (s : t) : t :=
  match o with
  | OpSetConnection con => setConnection con s
  | OpRemoveConnection => removeConnection s
  | OpAddUpdateFunc func => addUpdateFunc func s
  | OpOpen doc =>
      match openFCDocument doc s with
      | Ok s' => s'
      | Raise _ => s
      end
  | OpClose doc => closeFCDocument doc s
  | OpAsyncClose doc unload call =>
      match asyncCloseDoc doc unload call s with
      | Finished (Ok s') => s'
      | Finished (Raise _) => s
      | Pending s' => s'
      end
  end.

Definition applies (ops : list op) (s : t) : t :=
  foldl (fun s o => apply o s) s ops.

End DocumentHandler.

(** No entry of [l] answers [val] under [key], and none lacks the key. *)
Definition misses (key : string) (val : DocumentHandler.pyobj)
    (l : list DocumentHandler.docmap) : Prop :=
  Forall (fun d => ∃ v, DocumentHandler.item key d = Some v ∧ v ≠ val) l.

(** * Properties *)

Section OrderedRunnerFacts.

Import OrderedRunner.

Implicit Types (r : OrderedRunner.t) (task : Task) (sched : list action).

Lemma ordered_inv_init logger : ordered_inv [] (__init__ logger).
Proof. by exists []. Qed.

Lemma wake_inv_init logger : wake_inv (__init__ logger).
Proof. by split. Qed.

(** The loop started with nothing in flight. *)
Lemma loop_ordered fuel r r' finished :
  effects r = flat_map block finished →
  loop fuel r = Some r' →
  ordered_inv (finished ++ tasks r) r'.
Proof.
  revert r. induction fuel as [|fuel IH]; intros r Heff Hloop;
    simpl in Hloop.
  - destruct (syncEvent r) eqn:Hs.
    + destruct (tasks r) as [|task rest] eqn:Hq; [done|].
      injection Hloop as <-. exists finished. simpl.
      by rewrite Heff, app_nil_r.
    + injection Hloop as <-. exists finished. simpl.
      by rewrite Heff, app_nil_r.
  - destruct (syncEvent r) eqn:Hs.
    + destruct (tasks r) as [|task rest] eqn:Hq.
      * apply IH in Hloop; [|done]. simpl in Hloop. by rewrite Hq in Hloop.
      * injection Hloop as <-. exists finished. simpl.
        by rewrite Heff, app_nil_r.
    + injection Hloop as <-. exists finished. simpl.
      by rewrite Heff, app_nil_r.
Qed.

Lemma loop_wake fuel r r' :
  (tasks r ≠ [] → syncEvent r = true) →
  loop fuel r = Some r' →
  wake_inv r'.
Proof.
  revert r. induction fuel as [|fuel IH]; intros r Hpre Hloop;
    simpl in Hloop; destruct (syncEvent r) eqn:Hs;
    try (destruct (tasks r) as [|task rest] eqn:Hq); try done.
  all: try (injection Hloop as <-; unfold wake_inv; simpl; try done).
  all: try (rewrite Hs; split; [done|]; intros Hne; by apply Hpre).
  eapply IH; [|exact Hloop]. simpl. by rewrite Hq.
Qed.

Lemma run_ordered sub task r :
  ordered_inv sub r → ordered_inv (sub ++ [task]) (run task.1 task.2 r).
Proof.
  intros (finished & Hsub & Heff). exists finished. destruct task as [c a].
  split; [|done]. unfold in_flight in *. simpl.
  rewrite Hsub. by rewrite <- !app_assoc.
Qed.

Lemma run_wake fnc args r : wake_inv r → wake_inv (run fnc args r).
Proof.
  unfold wake_inv. simpl. destruct (maintask r); try done.
  all: intros _; split; [|done]; intros _; by destruct (tasks r).
Qed.

Lemma __run_ordered fuel sub r r' :
  ordered_inv sub r → __run fuel r = Some r' → ordered_inv sub r'.
Proof.
  intros (finished & Hsub & Heff) Hrun. unfold __run in Hrun.
  unfold in_flight in *.
  destruct (maintask r) as [| |task|] eqn:Hm; simpl in Hsub, Heff.
  - rewrite app_nil_r in Heff. subst sub.
    by apply (loop_ordered fuel (set_finishEvent true r)).
  - rewrite app_nil_r in Heff. subst sub. by apply (loop_ordered fuel r).
  - rewrite app_nil_r in Heff.
    assert (Hfin : effects r ++ await_leave task.1 task.2
                   = flat_map block (finished ++ [task])).
    { rewrite flat_map_app. simpl. rewrite app_nil_r. unfold block at 2.
      by rewrite Heff, app_assoc. }
    assert (Hsub' : sub = (finished ++ [task]) ++ tasks r).
    { by rewrite Hsub, <- app_assoc. }
    destruct (await_result task.1) eqn:Hres.
    + simpl in Hrun. destruct (tasks r) as [|next rest] eqn:Hq.
      * eapply loop_ordered in Hrun; [|exact Hfin].
        simpl in Hrun. rewrite Hq in Hrun. by rewrite Hsub'.
      * injection Hrun as <-. exists (finished ++ [task]). simpl.
        split; [done|]. by rewrite Hfin, app_nil_r.
    + eapply loop_ordered in Hrun; [|exact Hfin].
      simpl in Hrun. by rewrite Hsub'.
    + injection Hrun as <-. exists finished. unfold in_flight.
      rewrite Hm. simpl. by rewrite app_nil_r.
  - injection Hrun as <-. exists finished. unfold in_flight. by rewrite Hm.
Qed.

Lemma __run_wake fuel r r' :
  wake_inv r → __run fuel r = Some r' → wake_inv r'.
Proof.
  unfold __run. intros Hw Hrun. unfold wake_inv in Hw.
  destruct (maintask r) as [| |task|] eqn:Hm.
  - eapply loop_wake; [|exact Hrun]. simpl. apply Hw.
  - eapply loop_wake; [|exact Hrun]. apply Hw.
  - destruct (await_result task.1) eqn:Hres.
    + simpl in Hrun. destruct (tasks r) as [|next rest] eqn:Hq.
      * eapply loop_wake; [|exact Hrun]. simpl. by rewrite Hq.
      * injection Hrun as <-. by unfold wake_inv.
    + eapply loop_wake; [|exact Hrun]. by simpl.
    + injection Hrun as <-. unfold wake_inv. by rewrite Hm.
  - injection Hrun as <-. unfold wake_inv. by rewrite Hm.
Qed.

Lemma exec_app fuel sched1 sched2 r :
  exec fuel (sched1 ++ sched2) r = r' ← exec fuel sched1 r; exec fuel sched2 r'.
Proof.
  revert r. induction sched1 as [|a sched1 IH]; intros r; simpl; [done|].
  destruct (step fuel a r); simpl; [apply IH|done].
Qed.

Lemma submitted_app sched1 sched2 :
  submitted (sched1 ++ sched2) = submitted sched1 ++ submitted sched2.
Proof. apply flat_map_app. Qed.

Lemma exec_inv fuel sched sub r r' :
  ordered_inv sub r → wake_inv r →
  exec fuel sched r = Some r' →
  ordered_inv (sub ++ submitted sched) r' ∧ wake_inv r'.
Proof.
  revert sub r. induction sched as [|a sched IH]; intros sub r Ho Hw Hex;
    simpl in Hex.
  - injection Hex as <-. simpl. by rewrite app_nil_r.
  - destruct (step fuel a r) as [r1|] eqn:Hstep; [|done]. simpl in Hex.
    destruct a as [task|]; simpl in Hstep.
    + injection Hstep as <-.
      change (submitted (ARun task :: sched)) with ([task] ++ submitted sched).
      rewrite app_assoc. apply (IH _ (run task.1 task.2 r)); [| |done].
      * by apply run_ordered.
      * by apply run_wake.
    + apply (IH _ r1); [| |done].
      * by eapply __run_ordered.
      * by eapply __run_wake.
Qed.

Lemma reachable_inv fuel logger sched r :
  exec fuel sched (__init__ logger) = Some r →
  ordered_inv (submitted sched) r ∧ wake_inv r.
Proof.
  intros Hex.
  apply (exec_inv fuel sched [] (__init__ logger) r
           (ordered_inv_init logger) (wake_inv_init logger) Hex).
Qed.

Lemma loop_asleep fuel r :
  syncEvent r = false → loop fuel r = Some (set_maintask AtWait r).
Proof. intros Hs. destruct fuel; simpl; by rewrite Hs. Qed.

Lemma loop_pop fuel r task rest :
  syncEvent r = true → tasks r = task :: rest →
  loop fuel r
  = Some (enter_task task (set_tasks rest (set_finishEvent false r))).
Proof. intros Hs Hq. destruct fuel; simpl; by rewrite Hs, Hq. Qed.

(** With the wake signal asserted and nothing queued the loop never
    suspends again: every pass raises IndexError and starts the next. *)
Lemma loop_livelock fuel r :
  syncEvent r = true → tasks r = [] → loop fuel r = None.
Proof.
  revert r. induction fuel as [|fuel IH]; intros r Hs Hq; simpl;
    rewrite Hs, Hq; [done|]. by apply IH.
Qed.

(** A failing task with work queued behind it: the text is logged and the
    next task is started. *)
Lemma ordered_runner_survives_failure fuel r task msg next rest :
  maintask r = AtTask task → await_result task.1 = Raises msg →
  syncEvent r = true → tasks r = next :: rest →
  __run fuel r
  = Some (enter_task next (set_tasks rest (set_finishEvent false
            (log_error msg (emit (await_leave task.1 task.2) r))))).
Proof.
  intros Hm Hres Hs Hq. unfold __run. rewrite Hm, Hres.
  by apply loop_pop.
Qed.

(** A failing task with nothing queued behind it: the wake signal is still
    asserted, so the main task spins on IndexError without suspending. *)
Lemma ordered_runner_spins_after_failure fuel r task msg :
  maintask r = AtTask task → await_result task.1 = Raises msg →
  syncEvent r = true → tasks r = [] →
  __run fuel r = None.
Proof.
  intros Hm Hres Hs Hq. unfold __run. rewrite Hm, Hres.
  by apply loop_livelock.
Qed.

Lemma __run_returned_last fuel r task :
  maintask r = AtTask task → returns task → tasks r = [] →
  __run fuel r
  = Some (set_maintask AtWait (set_syncEvent false (set_finishEvent true
            (emit (await_leave task.1 task.2) r)))).
Proof.
  intros Hm Hret Hq. unfold __run. rewrite Hm, Hret. simpl tasks.
  rewrite Hq. by rewrite loop_asleep.
Qed.

Lemma __run_returned_next fuel r task next rest :
  maintask r = AtTask task → returns task → tasks r = next :: rest →
  __run fuel r
  = Some (enter_task next
            (set_tasks rest (emit (await_leave task.1 task.2) r))).
Proof.
  intros Hm Hret Hq. unfold __run. rewrite Hm, Hret. simpl tasks.
  by rewrite Hq.
Qed.

Lemma drain_in_flight fuel q : ∀ task r,
  maintask r = AtTask task → tasks r = q → Forall returns (task :: q) →
  ∃ r', exec fuel (replicate (S (length q)) AResume) r = Some r' ∧
        effects r' = effects r ++ await_leave task.1 task.2
                     ++ flat_map block q ∧
        tasks r' = [] ∧ maintask r' = AtWait ∧ finishEvent r' = true ∧
        logger r' = logger r.
Proof.
  induction q as [|next rest IH]; intros task r Hm Hq Hall;
    apply Forall_cons in Hall as [Hret Hall].
  - eexists. cbn [length replicate exec step].
    rewrite (__run_returned_last fuel r task) by done.
    split; [done|]. simpl. by rewrite app_nil_r.
  - destruct (IH next (enter_task next
                (set_tasks rest (emit (await_leave task.1 task.2) r))))
      as (r' & Hex & Heff & Hrest); [done|done|done|].
    exists r'. cbn [length replicate exec step].
    rewrite (__run_returned_next fuel r task next rest) by done.
    split; [exact Hex|]. split; [|exact Hrest].
    rewrite Heff. simpl. unfold block. by rewrite <- !app_assoc.
Qed.

Lemma drain_loop fuel q r :
  tasks r = q → (syncEvent r = true ↔ q ≠ []) → Forall returns q →
  ∃ r', (r1 ← loop fuel r; exec fuel (replicate (length q) AResume) r1)
        = Some r' ∧
        effects r' = effects r ++ flat_map block q ∧
        tasks r' = [] ∧ maintask r' = AtWait.
Proof.
  intros Hq Hiff Hall. destruct q as [|task rest].
  - eexists. rewrite loop_asleep.
    + split; [done|]. simpl. by rewrite app_nil_r.
    + destruct (syncEvent r); [|done]. by destruct (proj1 Hiff).
  - destruct (drain_in_flight fuel rest task
                (enter_task task (set_tasks rest (set_finishEvent false r))))
      as (r' & Hex & Heff & Ht & Hm & _); [done|done|done|].
    exists r'. rewrite (loop_pop fuel r task rest); [|by apply Hiff|done].
    split; [exact Hex|]. split; [|done].
    rewrite Heff. simpl. unfold block. by rewrite <- !app_assoc.
Qed.

Lemma drain_queue fuel q r :
  in_flight r = [] → wake_inv r → tasks r = q → Forall returns q →
  ∃ r', exec fuel (replicate (S (length q)) AResume) r = Some r' ∧
        effects r' = effects r ++ flat_map block q ∧
        tasks r' = [] ∧ maintask r' = AtWait.
Proof.
  intros Hfl Hw Hq Hall. unfold in_flight, wake_inv in *.
  cbn [replicate exec step]. unfold __run.
  destruct (maintask r) eqn:Hm; try done.
  - apply (drain_loop fuel q (set_finishEvent true r)); try done.
    simpl. by rewrite <- Hq.
  - apply (drain_loop fuel q r); try done. by rewrite <- Hq.
Qed.

(** C1.  Whatever the interleaving of [run] calls and resumptions of the
    main task, the effects seen so far are the complete blocks of an
    initial segment of the submissions, in submission order, followed by
    the start of the single task in flight, which is the next submission;
    the queue holds the remaining submissions.  So tasks run in FIFO order
    and none starts before its predecessor has ended.  And when the task
    in flight and the queued ones all complete, resuming the main task
    once per remaining task (and once more) runs every submission, in
    order, and leaves nothing queued or in flight. *)
Theorem ordered_runner_fifo fuel logger sched r :
  exec fuel sched (__init__ logger) = Some r →
  (∃ finished,
     submitted sched = finished ++ in_flight r ++ tasks r ∧
     effects r = flat_map block finished ++
                 flat_map (fun t : Task => await_enter t.1 t.2) (in_flight r))
  ∧ (Forall returns (in_flight r ++ tasks r) →
     ∃ r', exec fuel (replicate (S (length (tasks r))) AResume) r = Some r' ∧
           effects r' = flat_map block (submitted sched) ∧
           tasks r' = [] ∧ in_flight r' = []).
Proof.
  intros Hex. destruct (reachable_inv _ _ _ _ Hex) as [Ho Hw].
  split; [exact Ho|]. intros Hall.
  destruct Ho as (finished & Hsub & Heff).
  destruct (maintask r) as [| |task|] eqn:Hm.
  1, 2: unfold in_flight in *; rewrite Hm in *; simpl in *;
    destruct (drain_queue fuel (tasks r) r) as (r' & Hd & He & Ht & Hm');
    [by unfold in_flight; rewrite Hm|done|done|done|];
    exists r'; split; [done|];
    split; [|split; [done|by unfold in_flight; rewrite Hm']];
    by rewrite He, Heff, Hsub, app_nil_r, flat_map_app.
  - unfold in_flight in *. rewrite Hm in *. simpl in Hall, Hsub, Heff.
    destruct (drain_in_flight fuel (tasks r) task r)
      as (r' & Hd & He & Ht & Hm' & _); [done|done|done|].
    exists r'. split; [done|].
    split; [|split; [done|by unfold in_flight; rewrite Hm']].
    rewrite He, Heff, Hsub, app_nil_r, !flat_map_app. simpl.
    change (block task)
      with (await_enter task.1 task.2 ++ await_leave task.1 task.2).
    by rewrite <- !app_assoc.
  - unfold wake_inv in Hw. by rewrite Hm in Hw.
Qed.

Lemma ordered_runner_fifo_witness :
  let r := enter_task Samples.f
             (mk [] [Samples.g] true false "" None Created []) in
  exec 0 [ARun Samples.f; ARun Samples.g; AResume] (__init__ []) = Some r ∧
  (∃ finished,
     [Samples.f; Samples.g] = finished ++ in_flight r ++ tasks r ∧
     effects r = flat_map block finished ++
                 flat_map (fun t : Task => await_enter t.1 t.2) (in_flight r))
  ∧ (Forall returns (in_flight r ++ tasks r) →
     ∃ r', exec 0 (replicate 2 AResume) r = Some r' ∧
           effects r' = flat_map block [Samples.f; Samples.g] ∧
           tasks r' = [] ∧ in_flight r' = []).
Proof.
  split; [reflexivity|].
  apply (ordered_runner_fifo 0 []
           [ARun Samples.f; ARun Samples.g; AResume]).
  reflexivity.
Defined.

(** C9.  At every suspension point of the loop, [queued] lists the names
    of the submissions from some position [k] on, in submission order, and
    the task being executed is the submission just before position [k]:
    it has been popped and is not one of the queue's entries. *)
Theorem queued_excludes_current fuel logger sched r :
  exec fuel sched (__init__ logger) = Some r →
  ∃ k, tasks r = drop k (submitted sched) ∧
       queued r = map (fun t : Task => __name__ t.1)
                      (drop k (submitted sched)) ∧
       ∀ task, maintask r = AtTask task →
               ∃ j, k = S j ∧ submitted sched !! j = Some task.
Proof.
  intros Hex. destruct (reachable_inv _ _ _ _ Hex) as [Ho _].
  destruct Ho as (finished & Hsub & _).
  exists (length (finished ++ in_flight r)).
  assert (Hq : tasks r = drop (length (finished ++ in_flight r))
                           (submitted sched)).
  { by rewrite Hsub, app_assoc, drop_app_length. }
  split; [exact Hq|]. split; [unfold queued; by rewrite <- Hq|].
  intros task Hm. exists (length finished). unfold in_flight in *.
  rewrite Hm in *. split.
  - rewrite length_app. simpl. lia.
  - rewrite Hsub. simpl. by apply list_lookup_middle.
Qed.

Lemma queued_excludes_current_witness :
  ∃ k, [Samples.g] = drop k [Samples.f; Samples.g] ∧
       ["g"] = map (fun t : Task => __name__ t.1)
                   (drop k [Samples.f; Samples.g]) ∧
       ∀ task, AtTask Samples.f = AtTask task →
               ∃ j, k = S j ∧ [Samples.f; Samples.g] !! j = Some task.
Proof.
  apply (queued_excludes_current 0 []
           [ARun Samples.f; ARun Samples.g; AResume]
           (enter_task Samples.f
              (mk [] [Samples.g] true false "" None Created []))).
  reflexivity.
Defined.

Lemma loop_rest fuel : ∀ r r',
  (syncEvent r = false → finishEvent r = true) →
  loop fuel r = Some r' → rest_inv r'.
Proof.
  induction fuel as [|fuel IH]; intros r r' Hpre Hloop; simpl in Hloop;
    destruct (syncEvent r) eqn:Hs;
    try (destruct (tasks r) as [|task rest] eqn:Hq); try done.
  all: try (injection Hloop as <-; unfold rest_inv; simpl; auto; fail).
  eapply IH; [|exact Hloop]. simpl. by rewrite Hs.
Qed.

Lemma __run_rest fuel r r' :
  wake_inv r → rest_inv r → __run fuel r = Some r' → rest_inv r'.
Proof.
  unfold __run, wake_inv, rest_inv at 1. intros Hw Hr Hrun.
  destruct (maintask r) as [| |task|] eqn:Hm; [| | |done].
  - eapply loop_rest; [|exact Hrun]. done.
  - eapply loop_rest; [|exact Hrun]. done.
  - destruct (await_result task.1) eqn:Hres.
    + simpl in Hrun. destruct (tasks r) as [|next rest] eqn:Hq.
      * eapply loop_rest; [|exact Hrun]. done.
      * injection Hrun as <-. unfold rest_inv. by simpl.
    + eapply loop_rest; [|exact Hrun]. simpl. by rewrite Hw.
    + injection Hrun as <-. unfold rest_inv. by rewrite Hm.
Qed.

Lemma exec_rest fuel sched : ∀ r r',
  wake_inv r → rest_inv r → exec fuel sched r = Some r' → rest_inv r'.
Proof.
  induction sched as [|a sched IH]; intros r r' Hw Hr Hex; simpl in Hex.
  - by injection Hex as <-.
  - destruct (step fuel a r) as [r1|] eqn:Hstep; [|done]. simpl in Hex.
    apply (IH r1 r'); [| |done].
    + destruct a as [task|]; simpl in Hstep.
      * injection Hstep as <-. by apply run_wake.
      * by eapply __run_wake.
    + destruct a as [task|]; simpl in Hstep.
      * injection Hstep as <-. exact Hr.
      * by eapply __run_rest.
Qed.

Lemma loop_unwoken fuel : ∀ r r', loop fuel r = Some r' → woken r' = false.
Proof.
  induction fuel as [|fuel IH]; intros r r' Hloop; simpl in Hloop;
    destruct (syncEvent r) eqn:Hs;
    try (destruct (tasks r) as [|task rest] eqn:Hq); try done.
  all: try (injection Hloop as <-; unfold woken; simpl; done).
  by eapply IH.
Qed.

Lemma __run_unwoken fuel r r' : __run fuel r = Some r' → woken r' = false.
Proof.
  unfold __run. intros Hrun.
  destruct (maintask r) as [| |task|] eqn:Hm.
  - by eapply loop_unwoken.
  - by eapply loop_unwoken.
  - destruct (await_result task.1).
    + simpl in Hrun. destruct (tasks r) as [|next rest].
      * by eapply loop_unwoken.
      * by injection Hrun as <-.
    + by eapply loop_unwoken.
    + injection Hrun as <-. unfold woken. by rewrite Hm.
  - injection Hrun as <-. unfold woken. by rewrite Hm.
Qed.

(** On a runner in use a woken main task always reaches its next
    suspension point: there is work in the queue for it. *)
Lemma settle_total fuel r : wake_inv r → ∃ r0, settle fuel r = Some r0.
Proof.
  unfold settle, woken, wake_inv, __run. intros Hw.
  destruct (maintask r) eqn:Hm; try by eexists.
  - destruct (syncEvent r) eqn:Hs.
    + destruct (tasks r) as [|task rest] eqn:Hq; [by destruct Hw as [Hw _]; destruct Hw|].
      eexists. destruct fuel; simpl; by rewrite Hs, Hq.
    + eexists. by apply loop_asleep.
  - destruct (syncEvent r) eqn:Hs; [|by eexists].
    destruct (tasks r) as [|task rest] eqn:Hq; [by destruct Hw as [Hw _]; destruct Hw|].
    eexists. destruct fuel; simpl; by rewrite Hs, Hq.
Qed.

Lemma settle_inv fuel r r0 :
  wake_inv r → rest_inv r → settle fuel r = Some r0 →
  wake_inv r0 ∧ rest_inv r0 ∧ woken r0 = false.
Proof.
  unfold settle. intros Hw Hr Hs. destruct (woken r) eqn:Hwk.
  - split; [by eapply __run_wake|]. split; [by eapply __run_rest|].
    by eapply __run_unwoken.
  - by injection Hs as <-.
Qed.

(** A runner found Idle by the wait is at rest with nothing queued. *)
Lemma idle_at_rest r :
  wake_inv r → rest_inv r → woken r = false → finishEvent r = true →
  maintask r = AtWait ∧ tasks r = [].
Proof.
  unfold wake_inv, rest_inv, woken. intros Hw Hr Hwk Hf.
  rewrite Hf in Hr. destruct (maintask r); try done.
  split; [done|]. destruct (tasks r); [done|].
  rewrite Hwk in Hw. by destruct Hw as [_ Hw]; discriminate Hw.
Qed.

Lemma step_watched fuel a r r' :
  wake_inv r → rest_inv r → woken r = false → finishEvent r = false →
  step fuel a r = Some r' →
  wake_inv r' ∧ rest_inv r' ∧ woken r' = false.
Proof.
  intros Hw Hr Hwk Hf Hstep. destruct a as [task|]; simpl in Hstep.
  - injection Hstep as <-. split; [by apply run_wake|].
    unfold rest_inv, woken, wake_inv in *. simpl. rewrite Hf in Hr.
    by destruct (maintask r).
  - split; [by eapply __run_wake|]. split; [by eapply __run_rest|].
    by eapply __run_unwoken.
Qed.

Lemma await_finish_idle fuel sched : ∀ r k rk,
  wake_inv r → rest_inv r → woken r = false →
  k ≤ length sched → exec fuel (take k sched) r = Some rk →
  finishEvent rk = true →
  ∃ j rj, j ≤ k ∧ exec fuel (take j sched) r = Some rj ∧
          await_finish fuel sched r = Some (Returned, rj, drop j sched) ∧
          maintask rj = AtWait ∧ tasks rj = [].
Proof.
  induction sched as [|a sched IH]; intros r k rk Hw Hr Hwk Hk Hex Hidle.
  - rewrite take_nil in Hex. injection Hex as <-. exists 0, r. simpl.
    rewrite Hidle. split; [lia|]. split; [done|]. split; [done|].
    by apply idle_at_rest.
  - destruct (finishEvent r) eqn:Hf.
    + exists 0, r. simpl. rewrite Hf. split; [lia|]. split; [done|].
      split; [done|]. by apply idle_at_rest.
    + destruct k as [|k]; [simpl in Hex; congruence|].
      rewrite firstn_cons in Hex. simpl in Hex, Hk.
      destruct (step fuel a r) as [r1|] eqn:Hstep; [|done]. simpl in Hex.
      destruct (step_watched fuel a r r1) as (Hw1 & Hr1 & Hwk1); try done.
      destruct (IH r1 k rk) as (j & rj & Hj & Hexj & Hwait & Hrest);
        try done; [lia|].
      exists (S j), rj. split; [lia|]. rewrite firstn_cons, skipn_cons.
      split; [cbn [exec]; by rewrite Hstep|].
      split; [|done]. cbn [await_finish]. by rewrite Hf, Hstep.
Qed.

Lemma await_finish_busy fuel sched : ∀ r rN,
  wake_inv r → rest_inv r → woken r = false →
  exec fuel sched r = Some rN →
  (∀ k rk, k ≤ length sched → exec fuel (take k sched) r = Some rk →
           in_flight rk ++ tasks rk ≠ []) →
  await_finish fuel sched r = Some (TimeoutError, rN, []).
Proof.
  induction sched as [|a sched IH]; intros r rN Hw Hr Hwk Hex Hbusy.
  all: assert (Hf : finishEvent r = false).
  1,3: destruct (finishEvent r) eqn:Hf; [|done];
       destruct (idle_at_rest r Hw Hr Hwk Hf) as [Hm Hq];
       destruct (Hbusy 0 r); [simpl; lia|by rewrite take_0|];
       unfold in_flight; by rewrite Hm, Hq.
  - cbn [exec await_finish] in *. rewrite Hf. by injection Hex as <-.
  - cbn [exec await_finish] in *. rewrite Hf.
    destruct (step fuel a r) as [r1|] eqn:Hstep; [|done].
    cbn [mbind option_bind] in *.
    destruct (step_watched fuel a r r1) as (Hw1 & Hr1 & Hwk1); try done.
    apply IH; try done. intros k rk Hk Hexk.
    apply (Hbusy (S k)); [simpl; lia|].
    rewrite firstn_cons. cbn [exec]. by rewrite Hstep.
Qed.

(** C5, amended.  A runner in use, not closed: [r] is what a fresh runner
    has become through calls of [run] and resumptions of its main task.
    [r0] is the runner when the wait begins to watch it, a woken main task
    having run its stretch; [sched] is what passes before the bound
    expires, with the main task reaching its suspension points.
    When the queue does not drain within the bound, that is when at every
    turn something is queued or in flight, the call returns having logged
    one line made of the liveness of the main task, the current task name
    and the names still queued; with a bound of zero nothing of [sched]
    passes before that.  When the bound is positive and the runner is
    Idle at some turn, the call returns the runner as it is at the first
    such turn, at rest with an empty queue: nothing is logged. *)
Theorem closeout_bounded fuel0 fuel sink pre timeout sched r :
  exec fuel0 pre (__init__ sink) = Some r →
  ∃ r0,
    settle fuel r = Some r0 ∧
    (∀ rN, exec fuel sched r0 = Some rN →
       (∀ k rk, k ≤ length sched → exec fuel (take k sched) r0 = Some rk →
                in_flight rk ++ tasks rk ≠ []) →
       ∃ rT rest,
         (rT, rest) = (if timeout is 0 then (r0, sched) else (rN, [])) ∧
         waitTillCloseout fuel timeout sched r
         = Some (log_error
                   ("Runner closeout timed out while working ("
                      +:+ str_bool (negb (done rT)) +:+ ") on " +:+ current rT
                      +:+ ". Remaining: " +:+ newline
                      +:+ repr_names (queued rT)) rT,
                 rest)) ∧
    (0 < timeout →
     ∀ k rk, k ≤ length sched → exec fuel (take k sched) r0 = Some rk →
             finishEvent rk = true →
       ∃ j rj, j ≤ k ∧ exec fuel (take j sched) r0 = Some rj ∧
               waitTillCloseout fuel timeout sched r
               = Some (rj, drop j sched) ∧
               maintask rj = AtWait ∧ tasks rj = []).
Proof.
  intros Hreach.
  destruct (reachable_inv fuel0 sink pre r Hreach) as [_ Hw].
  assert (Hr : rest_inv r).
  { by apply (exec_rest fuel0 pre (__init__ sink) r (wake_inv_init sink)). }
  destruct (settle_total fuel r Hw) as [r0 Hs]. exists r0.
  destruct (settle_inv fuel r r0 Hw Hr Hs) as (Hw0 & Hr0 & Hwk0).
  split; [done|]. unfold waitTillCloseout, wait_for. rewrite Hs.
  cbn [mbind option_bind]. split.
  - intros rN Hex Hbusy. destruct timeout as [|timeout].
    + by exists r0, sched.
    + exists rN, []. split; [done|].
      by rewrite (await_finish_busy fuel sched r0 rN).
  - intros Hpos k rk Hk Hex Hidle.
    destruct timeout as [|timeout]; [lia|].
    destruct (await_finish_idle fuel sched r0 k rk)
      as (j & rj & Hj & Hexj & Hwait & Hrest); try done.
    exists j, rj. by rewrite Hwait.
Qed.

Lemma closeout_bounded_witness :
  let busy := enter_task Samples.forever
                (mk [] [] true false "" None AtWait []) in
  let idle := mk [] [] false true "f" None AtWait (block Samples.f) in
  waitTillCloseout 0 1 []
    (run Samples.forever.1 Samples.forever.2
       (mk [] [] false true "" None AtWait []))
  = Some (log_error
            ("Runner closeout timed out while working ("
               +:+ str_bool (negb (done busy)) +:+ ") on " +:+ current busy
               +:+ ". Remaining: " +:+ newline
               +:+ repr_names (queued busy)) busy,
          []) ∧
  waitTillCloseout 0 1 [AResume; ARun Samples.g]
    (run Samples.f.1 Samples.f.2 (__init__ []))
  = Some (idle, [ARun Samples.g]).
Proof.
  split.
  - destruct (closeout_bounded 0 0 [] [AResume; ARun Samples.forever] 1 []
                (run Samples.forever.1 Samples.forever.2
                   (mk [] [] false true "" None AtWait [])) eq_refl)
      as (r0 & Hs & Hlog & _).
    injection Hs as <-.
    destruct (Hlog _ eq_refl) as (rT & rest & Heq & Hwait).
    { intros k rk Hk Hex. destruct k; [|simpl in Hk; lia].
      injection Hex as <-. discriminate. }
    injection Heq as -> ->. exact Hwait.
  - destruct (closeout_bounded 0 0 [] [ARun Samples.f] 1
                [AResume; ARun Samples.g]
                (run Samples.f.1 Samples.f.2 (__init__ [])) eq_refl)
      as (r0 & Hs & _ & Hidle).
    injection Hs as <-.
    destruct (Hidle ltac:(lia) 1 _ ltac:(simpl; lia) eq_refl eq_refl)
      as (j & rj & Hj & Hex & Hwait & _).
    destruct j as [|[|j]]; [discriminate Hwait| |lia].
    injection Hex as <-. exact Hwait.
Defined.

Lemma exec_cancelled fuel sched r :
  maintask r = Cancelled →
  ∃ r', exec fuel sched r = Some r' ∧ maintask r' = Cancelled ∧
        effects r' = effects r ∧ logger r' = logger r ∧
        finishEvent r' = finishEvent r ∧
        tasks r' = tasks r ++ submitted sched.
Proof.
  revert r. induction sched as [|a sched IH]; intros r Hm.
  - exists r. simpl. by rewrite app_nil_r.
  - destruct a as [task|]; cbn [exec step].
    + destruct task as [fnc args].
      destruct (IH (run fnc args r))
        as (r' & Hex & Hm' & He & Hl & Hf & Ht); [done|].
      exists r'. cbn [mbind option_bind]. split; [done|].
      repeat (split; [done|]). rewrite Ht. simpl. by rewrite <- app_assoc.
    + unfold __run. rewrite Hm. cbn [mbind option_bind]. by apply IH.
Qed.

Lemma close_cancels fuel sched r r' rest :
  close fuel sched r = Some (r', rest) →
  maintask r' = Cancelled ∧ finishEvent r' = true ∧ shutdown r' = Some true.
Proof.
  unfold close. intros Hc.
  destruct (waitTillCloseout fuel 10 sched r) as [[r1 rest1]|]; [|done].
  simpl in Hc. injection Hc as <- <-. unfold cancel. simpl.
  by destruct (maintask r1) eqn:Hm; simpl; try rewrite Hm.
Qed.

(** C5 as stated fails in two places.  On a closed runner: close has
    asserted the finish signal for good, so a task submitted afterwards
    stays queued for ever and the wait nevertheless returns at once with
    nothing logged.  With a bound of zero: wait_for gives up before it has
    looked at the finish signal, so the closeout line is logged on a
    runner that is Idle all along. *)
Lemma closeout_claim_fails :
  (∃ r, close 0 [] (__init__ []) = Some (r, []) ∧
        ¬ closeout_claim 0 3 [AResume; AResume]
            (run Samples.f.1 Samples.f.2 r)) ∧
  (∃ r, exec 0 [AResume] (__init__ []) = Some r ∧
        ¬ closeout_claim 0 0 [] r).
Proof.
  split.
  - eexists. split; [reflexivity|]. intros Hclaim.
    destruct (Hclaim _ _ eq_refl eq_refl) as [Hbusy _].
    destruct Hbusy as (r' & rest & rT & Hwait & Hlog).
    + intros k rk _ Hex.
      match type of Hex with exec _ ?sched ?r0 = _ =>
        destruct (exec_cancelled 0 sched r0 eq_refl)
          as (rk' & Hex' & _ & _ & _ & _ & Ht) end.
      rewrite Hex' in Hex. injection Hex as <-. rewrite Ht.
      unfold in_flight. by destruct (maintask rk').
    + injection Hwait as <- _. simpl in Hlog. by destruct (logger rT).
  - eexists. split; [reflexivity|]. intros Hclaim.
    destruct (Hclaim _ _ eq_refl eq_refl) as [_ Hidle].
    destruct (Hidle 0 _ ltac:(done) eq_refl eq_refl)
      as (j & rj & Hj & Hex & Hwait).
    destruct j; [|lia]. injection Hex as <-. discriminate Hwait.
Qed.

(** C10.  Once [close] has returned, [run] still appends the task and
    asserts the wake signal; whatever happens afterwards the main task is
    gone, so no further effect occurs and the task stays queued; and
    [waitTillCloseout] under a positive bound, the default of 10 among
    them, returns at once, leaving the runner and its log untouched
    although the queue is not empty. *)
Theorem run_after_close fuel sched r r' rest task :
  close fuel sched r = Some (r', rest) →
  tasks (run task.1 task.2 r') = tasks r' ++ [task] ∧
  syncEvent (run task.1 task.2 r') = true ∧
  (∀ fuel' sched', ∃ r2,
      exec fuel' sched' (run task.1 task.2 r') = Some r2 ∧
      effects r2 = effects r' ∧
      tasks r2 = tasks r' ++ [task] ++ submitted sched') ∧
  (∀ fuel' timeout sched', 0 < timeout →
      waitTillCloseout fuel' timeout sched' (run task.1 task.2 r')
      = Some (run task.1 task.2 r', sched')).
Proof.
  intros Hc. destruct (close_cancels _ _ _ _ _ Hc) as (Hm & Hf & _).
  split; [by destruct task|]. split; [done|]. split.
  - intros fuel' sched'.
    destruct (exec_cancelled fuel' sched' (run task.1 task.2 r'))
      as (r2 & Hex & _ & He & _ & _ & Ht); [done|].
    exists r2. split; [done|]. split; [done|].
    rewrite Ht. destruct task. simpl. by rewrite <- app_assoc.
  - intros fuel' timeout sched' Hpos. destruct timeout; [lia|].
    unfold waitTillCloseout, wait_for, settle, woken. simpl. rewrite Hm.
    cbn [mbind option_bind]. destruct sched'; simpl; by rewrite Hf.
Qed.

Lemma run_after_close_witness :
  let r' := mk [] [] false true "f" (Some true) Cancelled (block Samples.f) in
  tasks (run Samples.g.1 Samples.g.2 r') = tasks r' ++ [Samples.g] ∧
  syncEvent (run Samples.g.1 Samples.g.2 r') = true ∧
  (∀ fuel' sched', ∃ r2,
      exec fuel' sched' (run Samples.g.1 Samples.g.2 r') = Some r2 ∧
      effects r2 = effects r' ∧
      tasks r2 = tasks r' ++ [Samples.g] ++ submitted sched') ∧
  (∀ fuel' timeout sched', 0 < timeout →
      waitTillCloseout fuel' timeout sched' (run Samples.g.1 Samples.g.2 r')
      = Some (run Samples.g.1 Samples.g.2 r', sched')).
Proof.
  apply (run_after_close 0 [AResume]
           (run Samples.f.1 Samples.f.2 (__init__ [])) _ [] Samples.g).
  reflexivity.
Defined.

End OrderedRunnerFacts.

Section BatchedRunnerFacts.

Import BatchedOrderedRunner.

Implicit Types (r : BatchedOrderedRunner.t) (t u : Task) (q : list Task).
Implicit Types (handlers : gmap string callable).

Lemma runs_cons u q : ∃ g gs, runs (u :: q) = (u :: g) :: gs.
Proof.
  simpl. destruct (runs q) as [|[|v g] gs]; [by eexists _, _..|].
  case_decide; by eexists _, _.
Qed.

Lemma runs_step t u q g gs :
  runs (u :: q) = (u :: g) :: gs →
  runs (t :: u :: q)
  = if decide (__name__ t.1 = __name__ u.1)
    then (t :: u :: g) :: gs else [t] :: (u :: g) :: gs.
Proof.
  intros Hr. change (runs (t :: u :: q)) with
    (match runs (u :: q) with
     | (v :: g) :: gs =>
         if decide (__name__ t.1 = __name__ v.1)
         then (t :: v :: g) :: gs else [t] :: (v :: g) :: gs
     | _ => [[t]]
     end).
  by rewrite Hr.
Qed.

Lemma batched_effects_plain handlers t q :
  handlers !! __name__ t.1 = None →
  batched_effects handlers (t :: q) = block t ++ batched_effects handlers q.
Proof.
  intros Hn. unfold batched_effects. destruct q as [|u q].
  - cbn [runs flat_map run_effects]. rewrite Hn.
    cbn [flat_map]. by rewrite !app_nil_r.
  - destruct (runs_cons u q) as (g & gs & Hr).
    rewrite (runs_step t u q g gs Hr), Hr. case_decide as Hd.
    + cbn [flat_map run_effects]. rewrite <- Hd, Hn.
      cbn [flat_map]. by rewrite <- app_assoc.
    + cbn [flat_map run_effects]. rewrite Hn.
      cbn [flat_map]. by rewrite app_nil_r.
Qed.

Lemma batched_effects_last handlers t h :
  handlers !! __name__ t.1 = Some h →
  batched_effects handlers [t] = EvCall t :: block (h, []).
Proof.
  intros Hh. unfold batched_effects. cbn [runs flat_map run_effects].
  rewrite Hh. by rewrite app_nil_r.
Qed.

Lemma batched_effects_same handlers t u q h :
  handlers !! __name__ t.1 = Some h → __name__ u.1 = __name__ t.1 →
  batched_effects handlers (t :: u :: q)
  = EvCall t :: batched_effects handlers (u :: q).
Proof.
  intros Hh Hsame. unfold batched_effects.
  destruct (runs_cons u q) as (g & gs & Hr).
  rewrite (runs_step t u q g gs Hr), Hr, decide_True by done.
  cbn [flat_map run_effects map app]. by rewrite Hsame, Hh.
Qed.

Lemma batched_effects_other handlers t u q h :
  handlers !! __name__ t.1 = Some h → __name__ u.1 ≠ __name__ t.1 →
  batched_effects handlers (t :: u :: q)
  = EvCall t :: block (h, []) ++ batched_effects handlers (u :: q).
Proof.
  intros Hh Hother. unfold batched_effects.
  destruct (runs_cons u q) as (g & gs & Hr).
  rewrite (runs_step t u q g gs Hr), Hr, decide_False by done.
  cbn [flat_map run_effects]. rewrite Hh. by cbn [map app].
Qed.

Lemma batch_spec handlers h q : ∀ t evs,
  handlers !! __name__ t.1 = Some h →
  Forall (well_behaved handlers) (t :: q) →
  ∃ next q' calls,
    batch (__name__ t.1) t q evs = (BatchEnd next, q', evs ++ calls) ∧
    batched_effects handlers (t :: q)
    = calls ++ block (h, [])
      ++ batched_effects handlers (option_list next ++ q') ∧
    length (option_list next ++ q') ≤ length q ∧
    Forall (well_behaved handlers) (option_list next ++ q') ∧
    (next = None → q' = []).
Proof.
  induction q as [|u q IH]; intros t evs Hh Hall;
    apply Forall_cons in Hall as [Hwb Hall];
    pose proof Hwb as Hwb'; unfold well_behaved in Hwb';
    rewrite Hh in Hwb'; destruct Hwb' as [Hcall Hhres].
  - exists None, [], [EvCall t]. cbn [batch]. rewrite Hcall.
    split; [done|]. split; [|done].
    rewrite (batched_effects_last handlers t h Hh). simpl.
    by rewrite app_nil_r.
  - cbn [batch]. rewrite Hcall. case_decide as Hsame.
    + assert (Hh' : handlers !! __name__ u.1 = Some h) by by rewrite Hsame.
      destruct (IH u (evs ++ [EvCall t]) Hh' Hall)
        as (next & q' & calls & Hb & Hbe & Hlen & Hwbs & Hnone).
      exists next, q', (EvCall t :: calls). rewrite <- Hsame, Hb.
      split; [by rewrite <- app_assoc|]. split; [|split; [simpl; lia|done]].
      rewrite (batched_effects_same handlers t u q h Hh Hsame).
      by rewrite Hbe.
    + exists (Some u), q, [EvCall t]. split; [done|].
      split; [|done].
      by rewrite (batched_effects_other handlers t u q h Hh Hsame).
Qed.

Lemma asleep_fixed r :
  maintask r = AtWait → syncEvent r = false → __run r = r.
Proof.
  destruct r. simpl. intros -> ->. reflexivity.
Qed.

Lemma asleep_stable n r :
  maintask r = AtWait → syncEvent r = false →
  exec (replicate n AResume) r = r.
Proof.
  intros Hm Hs. induction n as [|n IH]; [done|].
  cbn [replicate exec foldl step]. by rewrite asleep_fixed.
Qed.

Lemma work_plain t r :
  batchHandler r !! __name__ t.1 = None →
  work t r
  = emit (await_enter t.1 t.2)
         (set_maintask (AtTask t) (set_current (__name__ t.1) r)).
Proof. intros Hn. unfold work. simpl. by rewrite Hn. Qed.

Lemma work_batch t r h next q' calls :
  batchHandler r !! __name__ t.1 = Some h →
  batch (__name__ t.1) t (tasks r) [] = (BatchEnd next, q', calls) →
  work t r
  = emit (await_enter h [])
         (set_maintask (AtHandler h next)
            (emit calls (set_tasks q' (set_current (__name__ t.1) r)))).
Proof. intros Hh Hb. unfold work. simpl. by rewrite Hh, Hb. Qed.

Lemma finish_asleep r :
  finish r
  = set_maintask AtWait
      (set_syncEvent false (set_finishEvent true (set_current "" r))).
Proof. done. Qed.

Lemma exec_resume n r :
  exec (replicate (S n) AResume) r = exec (replicate n AResume) (__run r).
Proof. done. Qed.

Lemma resume_handler r h next :
  maintask r = AtHandler h next → await_result h = Returns →
  __run r
  = match next with
    | Some u => work u (emit (await_leave h []) r)
    | None => finish (emit (await_leave h []) r)
    end.
Proof. intros Hm Hres. unfold __run. by rewrite Hm, Hres. Qed.

Lemma resume_task r t :
  maintask r = AtTask t → await_result t.1 = Returns →
  __run r
  = match tasks r with
    | u :: rest => work u (set_tasks rest (emit (await_leave t.1 t.2) r))
    | [] => finish (emit (await_leave t.1 t.2) r)
    end.
Proof. intros Hm Hres. unfold __run. by rewrite Hm, Hres. Qed.

Lemma drained_at_rest n r0 r evs :
  batch_drained r0 r evs → maintask r = AtWait →
  batch_drained r0 (exec (replicate n AResume) r) evs.
Proof.
  intros Hd Hm. rewrite asleep_stable; [done|done|]. apply Hd.
Qed.

(** From the body of the outer while to the idle state. *)
Lemma work_drains n : ∀ t r,
  length (tasks r) < n →
  Forall (well_behaved (batchHandler r)) (t :: tasks r) →
  batch_drained r (exec (replicate n AResume) (work t r))
                (batched_effects (batchHandler r) (t :: tasks r)).
Proof.
  induction n as [|n IH]; intros t r Hlen Hall; [lia|].
  pose proof Hall as Hall0.
  apply Forall_cons in Hall as [Hwb Hall]. unfold well_behaved in Hwb.
  rewrite exec_resume.
  destruct (batchHandler r !! __name__ t.1) as [h|] eqn:Hh.
  - destruct Hwb as [Hcall Hhres].
    destruct (batch_spec (batchHandler r) h (tasks r) t [] Hh Hall0)
      as (next & q' & calls & Hb & Hbe & Hlen' & Hwbs & Hnone).
    rewrite (work_batch t r h next q' ([] ++ calls) Hh Hb).
    rewrite (resume_handler _ h next) by done.
    rewrite Hbe. destruct next as [u|].
    + match goal with |- batch_drained _ (exec _ (work u ?r1)) _ =>
        destruct (IH u r1) as (He & Hrest) end.
      { simpl in *. lia. }
      { exact Hwbs. }
      split; [|exact Hrest]. rewrite He. simpl. unfold block.
      by rewrite <- !app_assoc.
    + rewrite finish_asleep. rewrite (Hnone eq_refl).
      apply drained_at_rest; [|done]. repeat split; simpl.
      unfold batched_effects, block. simpl.
      by rewrite app_nil_r, <- !app_assoc.
  - rewrite (work_plain t r Hh).
    rewrite (resume_task _ t) by done. simpl tasks.
    rewrite (batched_effects_plain _ _ _ Hh).
    destruct (tasks r) as [|u rest] eqn:Hq.
    + rewrite finish_asleep. apply drained_at_rest; [|done].
      repeat split; simpl; [|done].
      unfold batched_effects, block. simpl.
      by rewrite app_nil_r, <- !app_assoc.
    + match goal with |- batch_drained _ (exec _ (work u ?r1)) _ =>
        destruct (IH u r1) as (He & Hrest) end.
      { simpl in *. lia. }
      { exact Hall. }
      split; [|exact Hrest]. rewrite He. simpl. unfold block.
      by rewrite <- !app_assoc.
Qed.

Lemma exec_app_batched sched1 sched2 r :
  exec (sched1 ++ sched2) r = exec sched2 (exec sched1 r).
Proof. apply foldl_app. Qed.

Lemma exec_submissions q : ∀ r,
  tasks (exec (map ARun q) r) = tasks r ++ q ∧
  maintask (exec (map ARun q) r) = maintask r ∧
  effects (exec (map ARun q) r) = effects r ∧
  batchHandler (exec (map ARun q) r) = batchHandler r ∧
  syncEvent (exec (map ARun q) r)
  = (if q is [] then syncEvent r else true).
Proof.
  induction q as [|t q IH]; intros r.
  - simpl. by rewrite app_nil_r.
  - change (exec (map ARun (t :: q)) r)
      with (exec (map ARun q) (run t.1 t.2 r)).
    destruct (IH (run t.1 t.2 r)) as (Ht & Hm & He & Hb & Hs).
    rewrite Ht, Hm, He, Hb, Hs. destruct t as [fnc args]. simpl.
    rewrite <- app_assoc. by destruct q.
Qed.

(** C2.  A runner at rest with an empty queue receives the tasks [q] and
    its main task is then resumed until the queue is drained.  Provided
    the batchable tasks return from their plain call and handlers and
    other tasks complete when awaited, the effects are those of the
    maximal runs of equal identity, run after run: for a run whose
    identity has a handler, one plain call per task and then a single
    await of the handler; for any other run, one await per task. *)
Theorem batched_drain_by_runs r q :
  maintask r = Created ∨ maintask r = AtWait →
  tasks r = [] → syncEvent r = false →
  Forall (well_behaved (batchHandler r)) q →
  ∃ r', exec (map ARun q ++ replicate (S (length q)) AResume) r = r' ∧
        effects r' = effects r ++ batched_effects (batchHandler r) q ∧
        tasks r' = [] ∧ maintask r' = AtWait.
Proof.
  intros Hm Hq Hs Hall. eexists. split; [done|].
  rewrite exec_app_batched, exec_resume.
  destruct (exec_submissions q r) as (Ht & Hm' & He & Hb & Hs').
  rewrite Hq in Ht. simpl in Ht.
  set (s := exec (map ARun q) r) in *.
  destruct q as [|t rest].
  - assert (Hrun : __run s = set_maintask AtWait
              (if maintask r is Created then set_finishEvent true s else s)).
    { unfold __run, top. rewrite Hm'.
      destruct Hm as [-> | ->]; simpl; by rewrite Hs', Hs. }
    rewrite Hrun, asleep_stable.
    + unfold batched_effects. simpl. rewrite app_nil_r.
      destruct Hm as [-> | ->]; by simpl.
    + done.
    + simpl. destruct Hm as [-> | ->]; simpl; by rewrite Hs', Hs.
  - assert (Hrun : ∃ r1, __run s = work t r1 ∧ tasks r1 = rest ∧
              effects r1 = effects r ∧ batchHandler r1 = batchHandler r).
    { unfold __run, top. rewrite Hm'.
      destruct Hm as [-> | ->]; simpl; rewrite Hs', Ht;
        by eexists; split; [done|]. }
    destruct Hrun as (r1 & -> & Ht1 & He1 & Hb1).
    destruct (work_drains (S (length rest)) t r1)
      as (Heff & Htasks & Hmain & _).
    { rewrite Ht1. lia. }
    { by rewrite Hb1, Ht1. }
    cbn [length]. by rewrite Heff, Ht1, He1, Hb1.
Qed.

Lemma batched_drain_by_runs_witness :
  let r := registerBatchHandler "X" Samples.H (__init__ []) in
  let q := [Samples.X; Samples.X; Samples.X; Samples.Y] in
  ∃ r', exec (map ARun q ++ replicate 5 AResume) r = r' ∧
        effects r' = effects r ++ batched_effects (batchHandler r) q ∧
        tasks r' = [] ∧ maintask r' = AtWait.
Proof.
  apply (batched_drain_by_runs
           (registerBatchHandler "X" Samples.H (__init__ []))
           [Samples.X; Samples.X; Samples.X; Samples.Y]).
  - left. reflexivity.
  - reflexivity.
  - reflexivity.
  - repeat constructor.
Defined.

(** X, X, X, Y with H registered for X: three plain calls of X, one await
    of H, one await of Y. *)
Example batching_collapse :
  effects (exec (map ARun [Samples.X; Samples.X; Samples.X; Samples.Y]
                   ++ replicate 5 AResume)
                (registerBatchHandler "X" Samples.H (__init__ [])))
  = [EvCall Samples.X; EvCall Samples.X; EvCall Samples.X;
     EvAwait (Samples.H, []); EvReturn (Samples.H, []);
     EvAwait Samples.Y; EvReturn Samples.Y].
Proof. reflexivity. Qed.

(** X, Y, X with H registered for X: H is awaited twice, Y between. *)
Example batching_segments :
  effects (exec (map ARun [Samples.X; Samples.Y; Samples.X]
                   ++ replicate 4 AResume)
                (registerBatchHandler "X" Samples.H (__init__ [])))
  = [EvCall Samples.X; EvAwait (Samples.H, []); EvReturn (Samples.H, []);
     EvAwait Samples.Y; EvReturn Samples.Y;
     EvCall Samples.X; EvAwait (Samples.H, []); EvReturn (Samples.H, [])].
Proof. reflexivity. Qed.

Lemma exec_failed sched : ∀ r exn,
  maintask r = Failed exn →
  maintask (exec sched r) = Failed exn ∧
  effects (exec sched r) = effects r ∧
  logger (exec sched r) = logger r.
Proof.
  induction sched as [|a sched IH]; intros r exn Hm; [done|].
  change (exec (a :: sched) r) with (exec sched (step a r)).
  destruct a as [t|].
  - destruct (IH (run t.1 t.2 r) exn) as (? & ? & ?); [done|]. done.
  - simpl step. unfold __run. rewrite Hm. by apply IH.
Qed.

(** C4, on BatchedOrderedRunner.  When the awaited task raises, the
    handler of line 295 fails on [self.logger]: the main task ends with
    AttributeError, nothing is logged, and whatever is queued or submitted
    afterwards is never executed. *)
Theorem batched_runner_dies_on_failure r task msg :
  maintask r = AtTask task → await_result task.1 = Raises msg →
  maintask (__run r) = Failed attribute_error ∧
  logger (__run r) = logger r ∧
  tasks (__run r) = tasks r ∧
  ∀ sched,
    maintask (exec sched (__run r)) = Failed attribute_error ∧
    effects (exec sched (__run r)) = effects (__run r) ∧
    logger (exec sched (__run r)) = logger r.
Proof.
  intros Hm Hres.
  assert (Hrun : __run r
                 = handle_exception msg (emit (await_leave task.1 task.2) r)).
  { unfold __run. by rewrite Hm, Hres. }
  rewrite Hrun. repeat (split; [done|]). intros sched.
  destruct (exec_failed sched
              (handle_exception msg (emit (await_leave task.1 task.2) r))
              attribute_error) as (? & ? & ?); done.
Qed.

Lemma batched_runner_dies_on_failure_witness :
  let r := exec [ARun Samples.bad; ARun Samples.f; AResume] (__init__ []) in
  maintask (__run r) = Failed attribute_error ∧
  logger (__run r) = logger r ∧
  tasks (__run r) = tasks r ∧
  ∀ sched,
    maintask (exec sched (__run r)) = Failed attribute_error ∧
    effects (exec sched (__run r)) = effects (__run r) ∧
    logger (exec sched (__run r)) = logger r.
Proof.
  apply (batched_runner_dies_on_failure
           (exec [ARun Samples.bad; ARun Samples.f; AResume] (__init__ []))
           Samples.bad "boom"); reflexivity.
Defined.

(** A task submitted while the handler of a batch that emptied the queue
    is awaited: line 279 leaves the outer while with [task = None] without
    looking at the queue again, so the runner goes to rest with the task
    still queued.  This is why C2 is stated for a queue submitted before
    the drain. *)
Example batched_runner_late_submission :
  let r := exec [ARun Samples.X; AResume; ARun Samples.X; AResume; AResume]
                (registerBatchHandler "X" Samples.H (__init__ [])) in
  maintask r = AtWait ∧ finishEvent r = true ∧ syncEvent r = false ∧
  tasks r = [Samples.X] ∧
  effects r = [EvCall Samples.X; EvAwait (Samples.H, []);
               EvReturn (Samples.H, [])].
Proof. done. Qed.

(** The failing input of C4, evaluated. *)
Example batched_runner_failure_trace :
  let r := exec [ARun Samples.bad; ARun Samples.f; AResume; AResume;
                 AResume] (__init__ []) in
  maintask r = Failed attribute_error ∧ logger r = [] ∧
  tasks r = [Samples.f] ∧
  effects r = [EvAwait Samples.bad; EvRaise Samples.bad "boom"].
Proof. done. Qed.

End BatchedRunnerFacts.

Section FacadeFacts.

Import DocumentBatchedOrderedRunner.

(** C3.  [run] on a facade touches the shared runner only: its queue gains
    one entry and its wake signal is asserted.  With a handler registered
    under the name of [fnc] in the facade's own table the entry is the
    wrapper, whose execution is the plain call of [fnc] followed, when
    that call returns, by the await of the handler; otherwise the entry is
    [fnc] itself. *)
Theorem facade_run_wraps self fnc args store runner :
  store !! docRunner self = Some runner →
  (∀ i, i ≠ docRunner self → run self fnc args store !! i = store !! i) ∧
  (∀ handler, batchHandler self !! __name__ fnc = Some handler →
     run self fnc args store !! docRunner self
     = Some (OrderedRunner.run (Wrapper fnc handler) args runner) ∧
     block (Wrapper fnc handler, args)
     = EvAwait (Wrapper fnc handler, args) :: EvCall (fnc, args) ::
       match call fnc with
       | Returns =>
           block (handler, [])
           ++ leave_event (Wrapper fnc handler, args) (await_result handler)
       | o => leave_event (Wrapper fnc handler, args) o
       end) ∧
  (batchHandler self !! __name__ fnc = None →
     run self fnc args store !! docRunner self
     = Some (OrderedRunner.run fnc args runner)).
Proof.
  intros Hr. split; [|split].
  - intros i Hi. unfold run.
    destruct (batchHandler self !! __name__ fnc);
      by rewrite list_lookup_alter_ne.
  - intros handler Hh. unfold run. rewrite Hh. split.
    + by rewrite list_lookup_alter_eq, Hr.
    + unfold block. simpl. destruct (call fnc); simpl; [|done..].
      by rewrite <- app_assoc.
  - intros Hn. unfold run. rewrite Hn. by rewrite list_lookup_alter_eq, Hr.
Qed.

Lemma facade_run_wraps_witness :
  let self := registerBatchHandler "X" Samples.H (__init__ 0) in
  let store := [OrderedRunner.__init__ []] in
  (∀ i, i ≠ 0 → run self Samples.X.1 Samples.X.2 store !! i = store !! i) ∧
  (∀ handler, batchHandler self !! "X" = Some handler →
     run self Samples.X.1 Samples.X.2 store !! 0
     = Some (OrderedRunner.run (Wrapper Samples.X.1 handler) Samples.X.2
               (OrderedRunner.__init__ [])) ∧
     block (Wrapper Samples.X.1 handler, Samples.X.2)
     = EvAwait (Wrapper Samples.X.1 handler, Samples.X.2)
       :: EvCall Samples.X ::
       (block (handler, [])
        ++ leave_event (Wrapper Samples.X.1 handler, Samples.X.2)
             (await_result handler))) ∧
  (batchHandler self !! "X" = None →
     run self Samples.X.1 Samples.X.2 store !! 0
     = Some (OrderedRunner.run Samples.X.1 Samples.X.2
               (OrderedRunner.__init__ []))).
Proof.
  apply (facade_run_wraps (registerBatchHandler "X" Samples.H (__init__ 0))
           Samples.X.1 Samples.X.2 [OrderedRunner.__init__ []]
           (OrderedRunner.__init__ [])).
  reflexivity.
Defined.

End FacadeFacts.

Section AcknowledgeSyncerFacts.

Import AcknowledgeSyncer.

Lemma exec_snoc sched a s : exec (sched ++ [a]) s = step a (exec sched s).
Proof. unfold exec. by rewrite foldl_app. Qed.

Lemma executions_snoc sched a :
  executions (sched ++ [a])
  = executions sched + (if decide (a = AExcecute) then 1 else 0).
Proof.
  unfold executions. rewrite filter_app, length_app. f_equal.
  destruct a; by simpl.
Qed.

Lemma latch_after n sched :
  count (exec sched (__init__ n)) = (n - Z.of_nat (executions sched))%Z ∧
  (event (exec sched (__init__ n)) = true
   ↔ (n ≤ Z.of_nat (executions sched))%Z ∧ 1 ≤ executions sched).
Proof.
  induction sched as [|a sched [IHc IHe]] using rev_ind.
  - unfold executions. simpl. split; [lia|]. split; [done|lia].
  - rewrite exec_snoc, executions_snoc. destruct a; simpl.
    + rewrite IHc. split; [lia|]. case_decide.
      * split; [lia|done].
      * rewrite IHe. lia.
    + rewrite IHc, IHe. lia.
Qed.






End AcknowledgeSyncerFacts.

Section BlockSyncerFacts.

Import BlockSyncer.

Implicit Types (s : BlockSyncer.t) (acts : list action).

Lemma exec_snoc_block acts a s : exec (acts ++ [a]) s = step a (exec acts s).
Proof. unfold exec. by rewrite foldl_app. Qed.

Lemma step_keeps_latch a s : latch s = true → latch (step a s) = true.
Proof.
  unfold latch. destruct s as [[v w] ret]. simpl. intros ->.
  by destruct a.
Qed.

Lemma latch_stays acts : ∀ s, latch s = true → latch (exec acts s) = true.
Proof.
  induction acts as [|a acts IH]; intros s Hl; [done|].
  apply (IH (step a s)). by apply step_keeps_latch.
Qed.

Lemma callers_snoc acts a :
  callers (acts ++ [a])
  = callers acts ++ match a with AExcecute c => [c] | _ => [] end.
Proof. unfold callers. rewrite flat_map_app. simpl. by rewrite app_nil_r. Qed.

Lemma restarted_nil : ¬ restarted [].
Proof. intros [H|H]; by apply elem_of_nil in H. Qed.

Lemma restarted_snoc acts a :
  restarted (acts ++ [a])
  ↔ restarted acts ∨ a = ARestart ∨ a = AAsyncRestart.
Proof.
  unfold restarted. rewrite !elem_of_app, !list_elem_of_singleton.
  split; [intros [[?|?]|[?|?]]|intros [[?|?]|[?|?]]]; by eauto.
Qed.

Lemma restarted_app acts more : restarted acts → restarted (acts ++ more).
Proof. unfold restarted. rewrite !elem_of_app. intros [?|?]; eauto. Qed.

(** The state after a history: before any restart every caller is
    suspended and none has returned; after one, none is suspended and all
    have returned. *)
Lemma history acts :
  let s := exec acts __init__ in
  (¬ restarted acts ∧ latch s = false ∧
   suspended s = callers acts ∧ returned s = []) ∨
  (restarted acts ∧ latch s = true ∧
   suspended s = [] ∧ returned s = callers acts).
Proof.
  induction acts as [|a acts IH] using rev_ind.
  - left. split; [apply restarted_nil|done].
  - cbn zeta in *. rewrite exec_snoc_block, callers_snoc, restarted_snoc.
    destruct (exec acts __init__) as [[v w] ret].
    unfold latch, suspended in *. simpl in IH.
    destruct IH as [(Hn & -> & -> & ->)|(Hr & -> & -> & ->)].
    + destruct a as [c| |]; simpl.
      * left. split; [|done]. by intros [?|[?|?]].
      * right. split; [|by rewrite app_nil_r]. eauto.
      * right. split; [|by rewrite app_nil_r]. eauto.
    + right. split; [by left|].
      destruct a as [c| |]; simpl; by rewrite ?app_nil_r.
Qed.

(** C7.  After any history of a BlockSyncer: the latch, once asserted,
    stays asserted whatever follows; as long as no restart has happened
    every excecute call made so far is suspended and none has returned;
    restart leaves no caller suspended and adds exactly the suspended
    ones to those that have returned; and after a restart every further
    excecute call returns at once. *)
Theorem block_syncer_latch acts :
  (∀ more, latch (exec acts __init__) = true →
           latch (exec more (exec acts __init__)) = true) ∧
  (¬ restarted acts →
     latch (exec acts __init__) = false ∧
     suspended (exec acts __init__) = callers acts ∧
     returned (exec acts __init__) = []) ∧
  (latch (restart (exec acts __init__)) = true ∧
   suspended (restart (exec acts __init__)) = [] ∧
   returned (restart (exec acts __init__))
   = returned (exec acts __init__) ++ suspended (exec acts __init__)) ∧
  (restarted acts → ∀ caller more,
     suspended (exec more (excecute caller (exec acts __init__))) = [] ∧
     returned (excecute caller (exec acts __init__))
     = returned (exec acts __init__) ++ [caller]).
Proof.
  pose proof (history acts) as H. cbn zeta in H.
  split; [intros more; apply latch_stays|]. split; [|split].
  - intros Hn. by destruct H as [(_ & ? & ? & ?)|(? & _)].
  - by destruct (exec acts __init__) as [[v w] ret].
  - intros Hr caller more.
    destruct H as [(? & _)|(_ & Hl & Hs & Hret)]; [done|].
    assert (Hex : excecute caller (exec acts __init__)
                  = exec (acts ++ [AExcecute caller]) __init__).
    { by rewrite exec_snoc_block. }
    split.
    + rewrite Hex. unfold exec. rewrite <- foldl_app.
      destruct (history ((acts ++ [AExcecute caller]) ++ more))
        as [(Hn & _)|(_ & _ & ? & _)]; [|done].
      exfalso. apply Hn. by do 2 apply restarted_app.
    + destruct (exec acts __init__) as [[v w] ret].
      unfold latch in Hl. simpl in *. by rewrite Hl.
Qed.

Lemma block_syncer_latch_witness :
  suspended (exec [AExcecute 4; AAsyncRestart]
               (excecute 3 (exec [AExcecute 1; AExcecute 2; ARestart]
                              __init__))) = [] ∧
  returned (excecute 3 (exec [AExcecute 1; AExcecute 2; ARestart] __init__))
  = returned (exec [AExcecute 1; AExcecute 2; ARestart] __init__) ++ [3].
Proof.
  apply (proj2 (proj2 (proj2 (block_syncer_latch
                                [AExcecute 1; AExcecute 2; ARestart])))).
  left. apply list_elem_of_In. simpl. tauto.
Defined.

End BlockSyncerFacts.

Section DocumentRunnerFacts.

Import DocumentRunner.

Implicit Types (w : DocumentRunner.t) (reqs : list request) (fs : list nat).

Lemma get_known ro k l w u :
  registry ro w !! k = Some u →
  get ro k l w
  = (mk (store w)
        (facades w ++ [DocumentBatchedOrderedRunner.__init__ u])
        (__sender w) (__receiver w),
     length (facades w)).
Proof.
  destruct ro; simpl; intros Hu;
    unfold getSenderRunner, getReceiverRunner; by rewrite Hu.
Qed.

Lemma get_new ro k l w :
  registry ro w !! k = None →
  get ro k l w
  = (mk (store w ++ [OrderedRunner.__init__ l])
        (facades w ++ [DocumentBatchedOrderedRunner.__init__ (length (store w))])
        (if ro is Sender then <[k := length (store w)]> (__sender w)
         else __sender w)
        (if ro is Receiver then <[k := length (store w)]> (__receiver w)
         else __receiver w),
     length (facades w)).
Proof.
  destruct ro; simpl; intros Hu;
    unfold getSenderRunner, getReceiverRunner; by rewrite Hu.
Qed.

Lemma gets_snoc reqs : ∀ w ro k l,
  gets (reqs ++ [(ro, k, l)]) w
  = ((get ro k l (gets reqs w).1).1,
     (gets reqs w).2 ++ [(get ro k l (gets reqs w).1).2]).
Proof.
  induction reqs as [|[[ro0 k0] l0] reqs IH]; intros w ro k l.
  - simpl. by destruct (get ro k l w).
  - cbn [app gets]. destruct (get ro0 k0 l0 w) as [w1 f1].
    rewrite IH. by destruct (gets reqs w1).
Qed.

(** The runner a request is served by: the registered one, or the one
    about to be created. *)
Lemma get_facade ro k l w :
  (get ro k l w).2 = length (facades w) ∧
  facades (get ro k l w).1
  = facades w ++ [DocumentBatchedOrderedRunner.__init__
                    (default (length (store w)) (registry ro w !! k))].
Proof.
  destruct (registry ro w !! k) as [u|] eqn:Hu.
  - by rewrite (get_known ro k l w u Hu).
  - by rewrite (get_new ro k l w Hu).
Qed.

Lemma get_store ro k l w :
  store (get ro k l w).1
  = store w ++ (if registry ro w !! k is Some _ then []
                else [OrderedRunner.__init__ l]).
Proof.
  destruct (registry ro w !! k) as [u|] eqn:Hu.
  - rewrite (get_known ro k l w u Hu). simpl. by rewrite app_nil_r.
  - by rewrite (get_new ro k l w Hu).
Qed.

Lemma get_registry ro k l w ro' k' :
  registry ro' (get ro k l w).1 !! k'
  = if decide (ro' = ro ∧ k' = k)
    then Some (default (length (store w)) (registry ro w !! k))
    else registry ro' w !! k'.
Proof.
  destruct (registry ro w !! k) as [u|] eqn:Hu.
  - rewrite (get_known ro k l w u Hu). simpl.
    case_decide as Hd; [|by destruct ro'].
    destruct Hd as [-> ->]. by destruct ro.
  - rewrite (get_new ro k l w Hu). simpl.
    case_decide as Hd.
    + destruct Hd as [-> ->]. destruct ro; simpl; by rewrite lookup_insert_eq.
    + destruct ro, ro'; simpl; try done;
        (rewrite lookup_insert_ne; [done|]); intros ->; by apply Hd.
Qed.

Lemma underlying_old w w' fcs f u :
  facades w' = facades w ++ fcs →
  underlying w f = Some u → underlying w' f = Some u.
Proof.
  unfold underlying. intros -> Hu.
  destruct (facades w !! f) as [fc|] eqn:Hf; [|done].
  by rewrite (lookup_app_l_Some _ _ _ _ Hf).
Qed.

Lemma underlying_new ro k l w :
  underlying (get ro k l w).1 (get ro k l w).2
  = Some (default (length (store w)) (registry ro w !! k)).
Proof.
  destruct (get_facade ro k l w) as [-> Hf]. unfold underlying.
  rewrite Hf. by rewrite list_lookup_middle.
Qed.

Lemma registry_inv_empty : registry_inv [] [] empty.
Proof.
  split; [constructor|]. split.
  - intros [] k u; simpl; by rewrite lookup_empty.
  - intros [] k1 ro2 k2 u; simpl; by rewrite lookup_empty.
Qed.

Lemma get_inv reqs fs w ro k l :
  registry_inv reqs fs w →
  registry_inv (reqs ++ [(ro, k, l)]) (fs ++ [(get ro k l w).2])
               (get ro k l w).1.
Proof.
  intros (Hserve & Hreg & Hinj).
  assert (Hfresh : registry ro w !! k = None →
                   ∀ ro' k', registry ro' w !! k' ≠ Some (length (store w))).
  { intros _ ro' k' Hu. apply Hreg in Hu as [Hlt _]. lia. }
  split; [|split].
  - apply Forall2_app.
    + eapply Forall2_impl; [exact Hserve|].
      intros [[ro' k'] l'] f (u & Hu & Hr). exists u. simpl in *. split.
      * eapply underlying_old; [apply get_facade|done].
      * rewrite get_registry. case_decide as Hd; [|done].
        destruct Hd as [-> ->]. by rewrite Hr.
    + constructor; [|constructor]. eexists. split; [apply underlying_new|].
      simpl. rewrite get_registry. by rewrite decide_True.
  - intros ro' k' u. rewrite get_registry, get_store, length_app.
    case_decide as Hd.
    + destruct Hd as [-> ->]. intros [= <-]. split.
      * destruct (registry ro w !! k) as [u|] eqn:Hu; simpl; [|lia].
        apply Hreg in Hu as [? _]. lia.
      * exists l. apply elem_of_app. right. by apply list_elem_of_singleton.
    + intros Hu. apply Hreg in Hu as [Hlt [l' Hin]]. split; [lia|].
      exists l'. apply elem_of_app. by left.
  - intros ro1 k1 ro2 k2 u. rewrite !get_registry.
    case_decide as Hd1; case_decide as Hd2.
    + destruct Hd1 as [-> ->], Hd2 as [-> ->]. done.
    + destruct Hd1 as [-> ->]. intros [= <-] Hu2.
      destruct (registry ro w !! k) as [u|] eqn:Hu; simpl in *.
      * destruct (Hinj _ _ _ _ _ Hu Hu2) as [-> ->]. done.
      * by destruct (Hfresh eq_refl ro2 k2).
    + destruct Hd2 as [-> ->]. intros Hu1 [= <-].
      destruct (registry ro w !! k) as [u|] eqn:Hu; simpl in *.
      * destruct (Hinj _ _ _ _ _ Hu1 Hu) as [-> ->]. done.
      * by destruct (Hfresh eq_refl ro1 k1).
    + apply Hinj.
Qed.

Lemma gets_inv reqs :
  registry_inv reqs (gets reqs empty).2 (gets reqs empty).1.
Proof.
  induction reqs as [|[[ro k] l] reqs IH] using rev_ind.
  - apply registry_inv_empty.
  - rewrite gets_snoc. simpl. by apply get_inv.
Qed.

(** C8.  After any sequence of requests, consider one more request for
    role [ro] and key [k].  It returns a facade that was not handed out
    before and that leads to a runner [u] present in the store.  If no
    earlier request had this role and key, the runner is created by this
    call.  Compared with the facade of any earlier request: same role and
    key, no runner is created and both facades lead to [u]; another key
    or the other role, the earlier facade leads to a different runner. *)
Theorem registry_sharing reqs w fs ro k l :
  gets reqs empty = (w, fs) →
  ∃ u, underlying (get ro k l w).1 (get ro k l w).2 = Some u ∧
       is_Some (store (get ro k l w).1 !! u) ∧
       ((get ro k l w).2 ∉ fs) ∧
       ((∀ l', (ro, k, l') ∉ reqs) →
          store (get ro k l w).1 = store w ++ [OrderedRunner.__init__ l] ∧
          u = length (store w)) ∧
       (∀ i ro' k' l' f',
          reqs !! i = Some (ro', k', l') → fs !! i = Some f' →
          (ro' = ro ∧ k' = k →
             store (get ro k l w).1 = store w ∧
             underlying (get ro k l w).1 f' = Some u) ∧
          (¬ (ro' = ro ∧ k' = k) →
             ∃ u', underlying (get ro k l w).1 f' = Some u' ∧ u' ≠ u)).
Proof.
  intros Hgets. pose proof (gets_inv reqs) as Hinv.
  rewrite Hgets in Hinv. simpl in Hinv.
  pose proof (get_inv reqs fs w ro k l Hinv) as (_ & Hreg' & Hinj').
  destruct Hinv as (Hserve & Hreg & Hinj).
  assert (Hu : registry ro (get ro k l w).1 !! k
               = Some (default (length (store w)) (registry ro w !! k))).
  { rewrite get_registry. by rewrite decide_True. }
  exists (default (length (store w)) (registry ro w !! k)).
  split; [apply underlying_new|]. split; [|split; [|split]].
  - apply lookup_lt_is_Some. by apply Hreg' in Hu as [? _].
  - intros Hin. apply list_elem_of_lookup in Hin as [i Hi].
    destruct (Forall2_lookup_r _ _ _ _ _ Hserve Hi)
      as (req & _ & u' & Hund & _).
    destruct (get_facade ro k l w) as [Hf _]. rewrite Hf in Hi, Hund.
    unfold underlying in Hund.
    rewrite lookup_ge_None_2 in Hund; [done|lia].
  - intros Hnone.
    destruct (registry ro w !! k) as [u|] eqn:Hru.
    + apply Hreg in Hru as [_ [l' Hin]]. by destruct (Hnone l').
    + rewrite get_store, Hru. done.
  - intros i ro' k' l' f' Hreq Hf'.
    destruct (Forall2_lookup_lr _ _ _ _ _ _ Hserve Hreq Hf')
      as (u' & Hund & Hru'). simpl in Hru'.
    assert (Hund' : underlying (get ro k l w).1 f' = Some u').
    { eapply underlying_old; [apply get_facade|done]. }
    split.
    + intros [-> ->]. rewrite get_store, Hru'. simpl.
      by rewrite app_nil_r.
    + intros Hne. exists u'. split; [done|]. intros Heq.
      apply Hne. apply (Hinj' ro' k' ro k u').
      * rewrite get_registry. by rewrite decide_False.
      * by rewrite Hu, Heq.
Qed.

Lemma registry_sharing_witness :
  let reqs := [(Sender, "doc1", []); (Receiver, "doc1", []);
               (Sender, "doc2", [])] in
  let w := (gets reqs empty).1 in
  let fs := (gets reqs empty).2 in
  ∃ u, underlying (get Sender "doc1" [] w).1 (get Sender "doc1" [] w).2
       = Some u ∧
       is_Some (store (get Sender "doc1" [] w).1 !! u) ∧
       ((get Sender "doc1" [] w).2 ∉ fs) ∧
       ((∀ l', (Sender, "doc1", l') ∉ reqs) →
          store (get Sender "doc1" [] w).1
          = store w ++ [OrderedRunner.__init__ []] ∧
          u = length (store w)) ∧
       (∀ i ro' k' l' f',
          reqs !! i = Some (ro', k', l') → fs !! i = Some f' →
          (ro' = Sender ∧ k' = "doc1" →
             store (get Sender "doc1" [] w).1 = store w ∧
             underlying (get Sender "doc1" [] w).1 f' = Some u) ∧
          (¬ (ro' = Sender ∧ k' = "doc1") →
             ∃ u', underlying (get Sender "doc1" [] w).1 f' = Some u' ∧
                   u' ≠ u)).
Proof.
  apply (registry_sharing
           [(Sender, "doc1", []); (Receiver, "doc1", []);
            (Sender, "doc2", [])]).
  reflexivity.
Defined.

(** "doc1" requested twice as sender, then "doc2": three facades, the
    first two on runner 0, the third on runner 1. *)
Example registry_two_documents :
  let '(w, fs) := gets [(Sender, "doc1", []); (Sender, "doc1", []);
                        (Sender, "doc2", [])] empty in
  fs = [0; 1; 2] ∧ underlying w <$> fs = [Some 0; Some 0; Some 1] ∧
  length (store w) = 2.
Proof. done. Qed.

End DocumentRunnerFacts.

Section OrderedRunnerMore.

Import OrderedRunner.

Implicit Types (r : OrderedRunner.t) (task : Task) (q ts : list Task).

Lemma exec_submissions_ordered fuel ts : ∀ r,
  exec fuel (map ARun ts) r
  = Some (if ts is [] then r
          else set_syncEvent true (set_tasks (tasks r ++ ts) r)).
Proof.
  induction ts as [|t ts IH]; intros r; [done|].
  cbn [map exec step mbind option_bind]. rewrite IH.
  destruct t as [fnc args]. destruct ts as [|t' ts]; [done|].
  unfold run, set_syncEvent, set_tasks. simpl. by rewrite <- app_assoc.
Qed.

Lemma resume_created fuel r task q :
  maintask r = Created → syncEvent r = true → tasks r = task :: q →
  __run fuel r
  = Some (enter_task task
            (set_tasks q (set_finishEvent false (set_finishEvent true r)))).
Proof.
  intros Hm Hs Hq. unfold __run. rewrite Hm. by apply loop_pop.
Qed.

(** A task in flight and a queue behind it, none hanging, the last one
    returning: the loop works through all of them. *)
Lemma drain_past_failures fuel q : ∀ task r last_task,
  maintask r = AtTask task → tasks r = q → syncEvent r = true →
  Forall finishes (task :: q) →
  last (task :: q) = Some last_task → returns last_task →
  ∃ r', exec fuel (replicate (S (length q)) AResume) r = Some r' ∧
        effects r' = effects r ++ await_leave task.1 task.2
                     ++ flat_map block q ∧
        logger r' = logger r ++ failures (task :: q) ∧
        tasks r' = [] ∧ maintask r' = AtWait ∧ finishEvent r' = true.
Proof.
  induction q as [|next rest IH]; intros task r lt Hm Hq Hs Hall Hlast Hret;
    apply Forall_cons in Hall as [Hfin Hall].
  - injection Hlast as <-. eexists. cbn [length replicate exec step].
    rewrite (__run_returned_last fuel r task) by done.
    split; [done|]. unfold failures. simpl. unfold returns in Hret.
    by rewrite Hret, !app_nil_r.
  - rewrite last_cons_cons in Hlast. cbn [length replicate exec step].
    destruct (await_result task.1) as [|msg|] eqn:Hres; [| |done].
    + rewrite (__run_returned_next fuel r task next rest) by done.
      cbn [mbind option_bind].
      destruct (IH next (enter_task next
                  (set_tasks rest (emit (await_leave task.1 task.2) r))) lt)
        as (r' & Hex & Heff & Hlog & Hrest); try done.
      exists r'. split; [exact Hex|]. split; [|split; [|exact Hrest]].
      * rewrite Heff. simpl. unfold block. by rewrite <- !app_assoc.
      * rewrite Hlog. unfold failures at 2. cbn [flat_map]. by rewrite Hres.
    + rewrite (ordered_runner_survives_failure fuel r task msg next rest)
        by done.
      cbn [mbind option_bind].
      destruct (IH next (enter_task next (set_tasks rest
                  (set_finishEvent false
                     (log_error msg (emit (await_leave task.1 task.2) r)))))
                  lt)
        as (r' & Hex & Heff & Hlog & Hrest); try done.
      exists r'. split; [exact Hex|]. split; [|split; [|exact Hrest]].
      * rewrite Heff. simpl. unfold block. by rewrite <- !app_assoc.
      * rewrite Hlog. unfold failures at 2. cbn [flat_map]. rewrite Hres.
        simpl. by rewrite <- app_assoc.
Qed.

(** X1.  Tasks submitted to a fresh OrderedRunner, none of which hangs and
    the last of which returns: resuming the main task once per task and
    once more runs every task in submission order, logs the text of each
    exception, in order, and leaves the runner at rest with the finish
    signal asserted. *)
Theorem ordered_runner_drains_past_failures fuel sink ts t :
  Forall finishes ts → returns t →
  ∃ r', exec fuel (map ARun (ts ++ [t])
                   ++ replicate (S (length (ts ++ [t]))) AResume)
             (__init__ sink) = Some r' ∧
        effects r' = flat_map block (ts ++ [t]) ∧
        logger r' = sink ++ failures ts ∧
        tasks r' = [] ∧ maintask r' = AtWait ∧ finishEvent r' = true.
Proof.
  intros Hall Hret. rewrite exec_app, exec_submissions_ordered.
  destruct (ts ++ [t]) as [|first q] eqn:Hts; [by destruct ts|].
  change (replicate (S (length (first :: q))) AResume)
    with (AResume :: replicate (S (length q)) AResume).
  cbn [mbind option_bind exec step].
  rewrite (resume_created fuel _ first q) by done.
  cbn [mbind option_bind].
  assert (Hfin : Forall finishes (first :: q)).
  { rewrite <- Hts. apply Forall_app. split; [done|].
    constructor; [|done]. unfold finishes. unfold returns in Hret.
    by rewrite Hret. }
  assert (Hlast : last (first :: q) = Some t) by by rewrite <- Hts, last_snoc.
  match goal with |- ∃ r', exec _ _ ?r0 = _ ∧ _ =>
    destruct (drain_past_failures fuel q first r0 t)
      as (r' & Hex & Heff & Hlog & Hrest); try done end.
  exists r'. split; [exact Hex|]. split; [|split; [|exact Hrest]].
  - rewrite Heff. simpl. unfold block. by rewrite <- !app_assoc.
  - rewrite Hlog, <- Hts. unfold failures.
    rewrite flat_map_app. simpl. unfold returns in Hret.
    by rewrite Hret, !app_nil_r.
Qed.

Lemma ordered_runner_drains_past_failures_witness :
  ∃ r', exec 0 (map ARun ([Samples.bad; Samples.f] ++ [Samples.g])
                ++ replicate 4 AResume) (__init__ []) = Some r' ∧
        effects r' = flat_map block ([Samples.bad; Samples.f] ++ [Samples.g]) ∧
        logger r' = [] ++ failures [Samples.bad; Samples.f] ∧
        tasks r' = [] ∧ maintask r' = AtWait ∧ finishEvent r' = true.
Proof.
  apply (ordered_runner_drains_past_failures 0 []
           [Samples.bad; Samples.f] Samples.g).
  - repeat constructor; discriminate.
  - reflexivity.
Defined.

Lemma spin_after_last_failure fuel q : ∀ task r last_task msg,
  maintask r = AtTask task → tasks r = q → syncEvent r = true →
  Forall finishes (task :: q) →
  last (task :: q) = Some last_task → await_result last_task.1 = Raises msg →
  exec fuel (replicate (S (length q)) AResume) r = None.
Proof.
  induction q as [|next rest IH];
    intros task r lt msg Hm Hq Hs Hall Hlast Hres;
    apply Forall_cons in Hall as [Hfin Hall].
  - injection Hlast as <-. cbn [length replicate exec step].
    by rewrite (ordered_runner_spins_after_failure fuel r task msg).
  - rewrite last_cons_cons in Hlast.
    change (replicate (S (length (next :: rest))) AResume)
      with (AResume :: replicate (S (length rest)) AResume).
    cbn [exec step].
    destruct (await_result task.1) as [|msg'|] eqn:Hres'; [| |done].
    + rewrite (__run_returned_next fuel r task next rest) by done.
      cbn [mbind option_bind]. by apply (IH next _ lt msg).
    + rewrite (ordered_runner_survives_failure fuel r task msg' next rest)
        by done.
      cbn [mbind option_bind]. by apply (IH next _ lt msg).
Qed.

(** X2.  Tasks submitted to a fresh OrderedRunner, none hanging, the last
    of which raises: once that last task has failed the main task never
    suspends again, whatever the number of passes granted.  The handler of
    line 170 does not clear the wake signal, so each pass finds the queue
    empty, raises IndexError in [pop(0)] and starts the next pass. *)
Theorem ordered_runner_spins_when_last_fails fuel sink ts t msg :
  Forall finishes ts → await_result t.1 = Raises msg →
  exec fuel (map ARun (ts ++ [t])
             ++ replicate (S (length (ts ++ [t]))) AResume)
       (__init__ sink) = None.
Proof.
  intros Hall Hres. rewrite exec_app, exec_submissions_ordered.
  destruct (ts ++ [t]) as [|first q] eqn:Hts; [by destruct ts|].
  change (replicate (S (length (first :: q))) AResume)
    with (AResume :: replicate (S (length q)) AResume).
  cbn [mbind option_bind exec step].
  rewrite (resume_created fuel _ first q) by done.
  cbn [mbind option_bind].
  apply (spin_after_last_failure fuel q first _ t msg); try done.
  - rewrite <- Hts. apply Forall_app. split; [done|].
    constructor; [|done]. unfold finishes. by rewrite Hres.
  - by rewrite <- Hts, last_snoc.
Qed.

Lemma ordered_runner_spins_when_last_fails_witness :
  exec 1000 (map ARun ([Samples.f] ++ [Samples.bad]) ++ replicate 3 AResume)
       (__init__ []) = None.
Proof.
  apply (ordered_runner_spins_when_last_fails 1000 [] [Samples.f]
           Samples.bad "boom").
  - repeat constructor; discriminate.
  - reflexivity.
Defined.

(** X3.  At every suspension point of a running OrderedRunner the finish
    signal is asserted exactly when the main task rests in line 154,
    waiting for the wake signal; while a task is in flight, and before the
    loop has started, it is cleared. *)
Theorem finish_signal_iff_at_rest fuel sink sched r :
  exec fuel sched (__init__ sink) = Some r →
  (finishEvent r = true ↔ maintask r = AtWait).
Proof.
  intros Hex.
  assert (Hr : rest_inv r).
  { by apply (exec_rest fuel sched (__init__ sink) r (wake_inv_init sink)). }
  unfold rest_inv in Hr. rewrite Hr. by destruct (maintask r).
Qed.

Lemma finish_signal_iff_at_rest_witness :
  finishEvent (enter_task Samples.forever
                 (mk [] [] true false "" None Created [])) = true
  ↔ maintask (enter_task Samples.forever
                (mk [] [] true false "" None Created [])) = AtWait.
Proof.
  apply (finish_signal_iff_at_rest 0 [] [ARun Samples.forever; AResume]).
  reflexivity.
Defined.

(** X4.  [close] may be called again: on a runner that [close] has left
    behind, a second [close] returns at once, consumes nothing of the
    schedule, logs nothing and leaves the runner exactly as it was. *)
Theorem close_twice fuel sched r r' rest fuel' sched' :
  close fuel sched r = Some (r', rest) →
  close fuel' sched' r' = Some (r', sched').
Proof.
  intros Hc. destruct (close_cancels _ _ _ _ _ Hc) as (Hm & Hf & Hsh).
  unfold close, waitTillCloseout, wait_for, settle, woken. rewrite Hm.
  cbn [mbind option_bind].
  assert (Hwait : await_finish fuel' sched' r' = Some (Returned, r', sched'))
    by (destruct sched'; simpl; by rewrite Hf).
  rewrite Hwait. cbn [mbind option_bind]. unfold cancel. simpl. rewrite Hm.
  destruct r'. simpl in *. by subst.
Qed.

Lemma close_twice_witness :
  close 0 [AResume] (mk [] [] false true "f" (Some true) Cancelled [])
  = Some (mk [] [] false true "f" (Some true) Cancelled [], [AResume]).
Proof.
  apply (close_twice 0 []
           (mk [] [] false true "f" None AtWait []) _ [] 0 [AResume]).
  reflexivity.
Defined.

End OrderedRunnerMore.

Section BatchedRunnerMore.

Import BatchedOrderedRunner.

Implicit Types (r : BatchedOrderedRunner.t) (t u : Task) (q : list Task).
Implicit Types (handlers : gmap string callable).

Lemma resume_created_batched r t q :
  maintask r = Created → syncEvent r = true → tasks r = t :: q →
  __run r = work t (set_tasks q (set_finishEvent false (set_finishEvent true r))).
Proof.
  intros Hm Hs Hq. unfold __run, top. rewrite Hm. simpl. by rewrite Hs, Hq.
Qed.

Lemma batched_effects_unregistered handlers q :
  Forall (fun t : Task => handlers !! __name__ t.1 = None) q →
  batched_effects handlers q = flat_map block q.
Proof.
  induction q as [|t q IH]; intros Hall; [done|].
  apply Forall_cons in Hall as [Ht Hall].
  rewrite (batched_effects_plain handlers t q Ht). simpl. by rewrite IH.
Qed.

(** X5.  A BatchedOrderedRunner none of whose handlers is registered under
    the name of a submitted task does what an OrderedRunner does: when the
    tasks return, both runners, fed the same tasks and resumed the same
    number of times, await each task in submission order and end with an
    empty queue and the same effects. *)
Theorem batched_without_handlers_is_ordered fuel sink r q :
  maintask r = Created → tasks r = [] → effects r = [] →
  Forall (fun t : Task => batchHandler r !! __name__ t.1 = None) q →
  Forall returns q →
  ∃ ro,
    OrderedRunner.exec fuel
      (map OrderedRunner.ARun q
       ++ replicate (S (length q)) OrderedRunner.AResume)
      (OrderedRunner.__init__ sink) = Some ro ∧
    effects (exec (map ARun q ++ replicate (S (length q)) AResume) r)
    = OrderedRunner.effects ro ∧
    OrderedRunner.effects ro = flat_map block q ∧
    tasks (exec (map ARun q ++ replicate (S (length q)) AResume) r) = [] ∧
    OrderedRunner.tasks ro = [].
Proof.
  intros Hm Hq He Hun Hret.
  destruct (drain_queue fuel q
              (if q is [] then OrderedRunner.__init__ sink
               else OrderedRunner.set_syncEvent true
                      (OrderedRunner.set_tasks q (OrderedRunner.__init__ sink))))
    as (ro & Hex & Heo & Hto & _).
  { by destruct q. }
  { unfold wake_inv. destruct q; simpl; [done|]. by split. }
  { by destruct q. }
  { done. }
  exists ro. rewrite exec_app, exec_submissions_ordered.
  cbn [mbind option_bind]. split; [exact Hex|].
  assert (Heo' : OrderedRunner.effects ro = flat_map block q).
  { rewrite Heo. by destruct q. }
  rewrite exec_app_batched, exec_resume, Heo'.
  destruct (exec_submissions q r) as (Ht & Hm' & He' & Hb & Hs').
  rewrite Hq in Ht. simpl in Ht.
  set (s := exec (map ARun q) r) in *.
  destruct q as [|t rest].
  - subst s. cbn [map exec foldl length replicate]. unfold __run, top.
    rewrite Hm. simpl. destruct (syncEvent r); rewrite ?Hq; simpl;
      by rewrite He, ?Hq.
  - rewrite (resume_created_batched s t rest) by (by rewrite ?Hm', ?Hs').
    match goal with |- context [exec _ (work t ?r1)] =>
      destruct (work_drains (S (length rest)) t r1)
        as (Heff & Htasks & _) end.
    { simpl. lia. }
    { simpl. rewrite Hb. apply Forall_forall. intros u Hu.
      unfold well_behaved.
      rewrite (proj1 (Forall_forall _ _) Hun u Hu).
      by apply (proj1 (Forall_forall _ _) Hret u Hu). }
    cbn [length]. rewrite Heff, Htasks. simpl. rewrite He', He, Hb.
    split; [|done].
    by rewrite (batched_effects_unregistered _ _ Hun).
Qed.

Lemma batched_without_handlers_is_ordered_witness :
  ∃ ro,
    OrderedRunner.exec 0
      (map OrderedRunner.ARun [Samples.f; Samples.Y]
       ++ replicate 3 OrderedRunner.AResume)
      (OrderedRunner.__init__ []) = Some ro ∧
    effects (exec (map ARun [Samples.f; Samples.Y] ++ replicate 3 AResume)
                  (registerBatchHandler "X" Samples.H (__init__ [])))
    = OrderedRunner.effects ro ∧
    OrderedRunner.effects ro = flat_map block [Samples.f; Samples.Y] ∧
    tasks (exec (map ARun [Samples.f; Samples.Y] ++ replicate 3 AResume)
                (registerBatchHandler "X" Samples.H (__init__ []))) = [] ∧
    OrderedRunner.tasks ro = [].
Proof.
  apply (batched_without_handlers_is_ordered 0 []
           (registerBatchHandler "X" Samples.H (__init__ []))
           [Samples.f; Samples.Y]); try reflexivity.
  - repeat constructor.
  - repeat constructor.
Defined.

Lemma batch_suffix cur q : ∀ t evs, (batch cur t q evs).1.2 `suffix_of` q.
Proof.
  induction q as [|u q IH]; intros t evs; cbn [batch];
    destruct (call t.1); try done.
  case_decide; simpl.
  - apply suffix_cons_r, IH.
  - by apply suffix_cons_r.
Qed.

Lemma work_suffix t r : tasks (work t r) `suffix_of` tasks r.
Proof.
  unfold work. simpl.
  destruct (batchHandler r !! __name__ t.1) as [h|]; [|done].
  pose proof (batch_suffix (__name__ t.1) (tasks r) t []) as Hb.
  destruct (batch (__name__ t.1) t (tasks r) []) as [[ex q'] evs].
  simpl in Hb. by destruct ex.
Qed.

Lemma __run_suffix r : tasks (__run r) `suffix_of` tasks r.
Proof.
  assert (Htop : ∀ r0, tasks (top r0) `suffix_of` tasks r0).
  { intros r0. unfold top. destruct (syncEvent r0); [|done].
    destruct (tasks r0) as [|t rest] eqn:Hq; simpl; [by rewrite Hq|].
    apply suffix_cons_r. apply (work_suffix t (set_tasks rest _)). }
  unfold __run. destruct (maintask r) as [| |t|t|h [u|]| |].
  - apply (Htop (set_finishEvent true r)).
  - apply Htop.
  - destruct (await_result t.1); try done. simpl.
    destruct (tasks r) as [|u rest] eqn:Hq.
    + unfold finish. etrans; [apply Htop|]. simpl. by rewrite Hq.
    + apply suffix_cons_r. apply (work_suffix u (set_tasks rest _)).
  - done.
  - destruct (await_result h); try done.
    apply (work_suffix u (emit (await_leave h []) r)).
  - destruct (await_result h); [|done..].
    apply (Htop (set_syncEvent false (set_finishEvent true
                   (set_current "" (emit (await_leave h []) r))))).
  - done.
  - done.
Qed.

(** X6.  Whatever the interleaving of [run] calls and resumptions, the
    queue of a BatchedOrderedRunner is a final segment of what it held at
    the start followed by the submissions, in order: the loop only ever
    takes tasks from the front and [run] only ever adds at the back. *)
Theorem batched_queue_is_suffix sched r :
  tasks (exec sched r) `suffix_of` tasks r ++ submitted sched.
Proof.
  revert r. induction sched as [|a sched IH]; intros r.
  - simpl. by rewrite app_nil_r.
  - change (exec (a :: sched) r) with (exec sched (step a r)).
    etrans; [apply IH|]. destruct a as [[fnc args]|]; simpl.
    + by rewrite <- app_assoc.
    + apply suffix_app, __run_suffix.
Qed.

(** X7.  When the handler awaited after a batch that emptied the queue
    returns, line 279 leaves the outer while without looking at the queue
    again: whatever was submitted while the handler was awaited stays
    queued, the runner goes to rest with the finish signal asserted and the
    wake signal cleared, and resuming it any number of times changes
    nothing. *)
Theorem batched_runner_strands_late_tasks r h n :
  maintask r = AtHandler h None → await_result h = Returns →
  maintask (__run r) = AtWait ∧
  finishEvent (__run r) = true ∧ syncEvent (__run r) = false ∧
  tasks (__run r) = tasks r ∧
  effects (__run r) = effects r ++ await_leave h [] ∧
  exec (replicate n AResume) (__run r) = __run r.
Proof.
  intros Hm Hres. rewrite (resume_handler r h None Hm Hres), finish_asleep.
  repeat (split; [done|]). by apply asleep_stable.
Qed.

Lemma batched_runner_strands_late_tasks_witness :
  let r := exec [ARun Samples.X; AResume; ARun Samples.X]
                (registerBatchHandler "X" Samples.H (__init__ [])) in
  maintask (__run r) = AtWait ∧
  finishEvent (__run r) = true ∧ syncEvent (__run r) = false ∧
  tasks (__run r) = tasks r ∧
  effects (__run r) = effects r ++ await_leave Samples.H [] ∧
  exec (replicate 7 AResume) (__run r) = __run r.
Proof.
  apply (batched_runner_strands_late_tasks
           (exec [ARun Samples.X; AResume; ARun Samples.X]
                 (registerBatchHandler "X" Samples.H (__init__ [])))
           Samples.H 7); reflexivity.
Defined.

Lemma step_failed a r exn :
  maintask r = Failed exn →
  maintask (step a r) = Failed exn ∧ finishEvent (step a r) = finishEvent r ∧
  logger (step a r) = logger r.
Proof.
  intros Hm. destruct a as [t|]; simpl; [done|]. unfold __run.
  by rewrite Hm.
Qed.

Lemma closeout_failed timeout : ∀ sched r exn,
  maintask r = Failed exn → finishEvent r = false →
  await_finish timeout sched r
  = Some (log_error (closeout_message (exec (take timeout sched) r))
                    (exec (take timeout sched) r),
          drop timeout sched).
Proof.
  induction timeout as [|timeout IH]; intros sched r exn Hm Hf.
  - rewrite take_0, drop_0. simpl. unfold blocked. by rewrite Hm, Hf.
  - simpl await_finish. unfold blocked. rewrite Hm, Hf.
    destruct sched as [|a sched].
    + rewrite take_nil, drop_nil.
      rewrite (IH [] r exn Hm Hf). by rewrite take_nil, drop_nil.
    + destruct (step_failed a r exn Hm) as (Hm' & Hf' & _).
      rewrite (IH sched (step a r) exn Hm') by by rewrite Hf'.
      by rewrite firstn_cons, skipn_cons.
Qed.

(** X8.  [close] on a BatchedOrderedRunner whose main task has ended with
    an exception while the finish signal was cleared (the state a failing
    task leaves behind): the closeout wait runs to its bound of 10 turns
    and logs the timeout line, then the exception of the main task is
    raised to the caller of [close]; line 238 is not reached, so the finish
    signal stays cleared. *)
Theorem batched_close_reraises sched r exn :
  maintask r = Failed exn → finishEvent r = false →
  ∃ r',
    close sched r = Some (CloseRaised exn r' (drop 10 sched)) ∧
    finishEvent r' = false ∧ shutdown r' = true ∧
    maintask r' = Failed exn ∧
    logger r' = logger r ++ [closeout_message (exec (take 10 sched) r)] ∧
    done (exec (take 10 sched) r) = true.
Proof.
  intros Hm Hf. unfold close, waitTillCloseout, settle, woken. rewrite Hm.
  rewrite (closeout_failed 10 sched r exn Hm Hf).
  cbn [mbind option_bind].
  assert (Hinv : ∀ acts r0, maintask r0 = Failed exn →
            maintask (exec acts r0) = Failed exn ∧
            finishEvent (exec acts r0) = finishEvent r0 ∧
            logger (exec acts r0) = logger r0).
  { induction acts as [|a acts IH]; intros r0 Hm0; [done|].
    change (exec (a :: acts) r0) with (exec acts (step a r0)).
    destruct (step_failed a r0 exn Hm0) as (Hm1 & Hf1 & Hl1).
    destruct (IH (step a r0) Hm1) as (? & ? & ?).
    split; [done|]. split; congruence. }
  destruct (Hinv (take 10 sched) r Hm) as (Hm' & Hf' & Hl').
  simpl. rewrite Hm'. eexists. split; [done|]. simpl.
  rewrite Hf', Hl'. unfold done. by rewrite Hm'.
Qed.

Lemma batched_close_reraises_witness :
  let r := exec [ARun Samples.bad; AResume; AResume] (__init__ []) in
  ∃ r',
    close [AResume] r
    = Some (CloseRaised attribute_error r' (drop 10 [AResume])) ∧
    finishEvent r' = false ∧ shutdown r' = true ∧
    maintask r' = Failed attribute_error ∧
    logger r' = logger r ++ [closeout_message (exec (take 10 [AResume]) r)] ∧
    done (exec (take 10 [AResume]) r) = true.
Proof.
  apply (batched_close_reraises [AResume]
           (exec [ARun Samples.bad; AResume; AResume] (__init__ []))
           attribute_error); reflexivity.
Defined.

Lemma batch_raises_now cur t q evs msg :
  call t.1 = Raises msg →
  batch cur t q evs = (BatchRaise msg, q, evs ++ [EvCall t]).
Proof. intros Hc. destruct q; simpl; by rewrite Hc. Qed.

Lemma batch_raises_later cur pre : ∀ t evs post bad msg,
  call t.1 = Returns →
  Forall (fun u : Task => __name__ u.1 = cur ∧ call u.1 = Returns) pre →
  __name__ bad.1 = cur → call bad.1 = Raises msg →
  batch cur t (pre ++ bad :: post) evs
  = (BatchRaise msg, post, evs ++ map EvCall (t :: pre ++ [bad])).
Proof.
  induction pre as [|u pre IH]; intros t evs post bad msg Ht Hpre Hn Hb.
  - cbn [app batch]. rewrite Ht, decide_True by done.
    rewrite (batch_raises_now cur bad post _ msg Hb). simpl.
    by rewrite <- app_assoc.
  - apply Forall_cons in Hpre as [[Hun Huc] Hpre].
    cbn [app batch]. rewrite Ht, decide_True by done.
    rewrite (IH u _ post bad msg) by done. simpl. by rewrite <- app_assoc.
Qed.

Lemma exec_submissions_logger q : ∀ r,
  logger (exec (map ARun q) r) = logger r.
Proof.
  induction q as [|t q IH]; intros r; [done|].
  change (exec (map ARun (t :: q)) r)
    with (exec (map ARun q) (run t.1 t.2 r)).
  by rewrite IH.
Qed.

(** X20.  A batch in which a plain call raises: the tasks of the batch up
    to and including the failing one have been called, the handler of the
    batch is not awaited, the main task ends (the exception handler fails
    on [self.logger]) without logging, and the tasks behind the failing
    one stay queued for ever: nothing further happens whatever is done
    next. *)
Theorem batch_aborted_by_failing_call r h good bad post msg sched :
  maintask r = Created → tasks r = [] →
  batchHandler r !! __name__ bad.1 = Some h →
  Forall (fun u : Task => __name__ u.1 = __name__ bad.1 ∧ call u.1 = Returns)
         good →
  call bad.1 = Raises msg →
  maintask (exec (map ARun (good ++ bad :: post) ++ [AResume]) r)
  = Failed attribute_error ∧
  effects (exec (map ARun (good ++ bad :: post) ++ [AResume]) r)
  = effects r ++ map EvCall (good ++ [bad]) ∧
  tasks (exec (map ARun (good ++ bad :: post) ++ [AResume]) r) = post ∧
  logger (exec (map ARun (good ++ bad :: post) ++ [AResume]) r) = logger r ∧
  effects (exec sched (exec (map ARun (good ++ bad :: post) ++ [AResume]) r))
  = effects r ++ map EvCall (good ++ [bad]).
Proof.
  intros Hm Hq Hh Hgood Hbad.
  assert (Hrun : ∀ s, maintask s = Created → syncEvent s = true →
            tasks s = good ++ bad :: post →
            batchHandler s = batchHandler r →
            maintask (__run s) = Failed attribute_error ∧
            effects (__run s) = effects s ++ map EvCall (good ++ [bad]) ∧
            tasks (__run s) = post ∧ logger (__run s) = logger s).
  { intros s Hms Hss Hts Hbs. destruct good as [|g gs].
    - rewrite (resume_created_batched s bad post) by done.
      unfold work. simpl. rewrite Hbs, Hh.
      rewrite (batch_raises_now _ bad post [] msg Hbad). done.
    - apply Forall_cons in Hgood as [[Hgn Hgc] Hgood].
      rewrite (resume_created_batched s g (gs ++ bad :: post)) by done.
      unfold work. simpl. rewrite Hbs, Hgn, Hh.
      rewrite (batch_raises_later (__name__ bad.1) gs g [] post bad msg)
        by done.
      done. }
  rewrite exec_app_batched.
  destruct (exec_submissions (good ++ bad :: post) r)
    as (Ht & Hm' & He & Hb & Hs).
  rewrite Hq in Ht. simpl in Ht.
  destruct (Hrun (exec (map ARun (good ++ bad :: post)) r))
    as (Hf & Heff & Htasks & Hlog).
  { by rewrite Hm'. }
  { rewrite Hs. by destruct good. }
  { done. }
  { done. }
  change (exec [AResume] ?s) with (__run s).
  split; [done|]. split; [by rewrite Heff, He|]. split; [done|].
  split.
  - by rewrite Hlog, exec_submissions_logger.
  - destruct (exec_failed sched _ attribute_error Hf) as (_ & -> & _).
    by rewrite Heff, He.
Qed.

Lemma batch_aborted_by_failing_call_witness :
  let r := registerBatchHandler "X" Samples.H (__init__ []) in
  let bad : Task := (Fn "X" (Raises "boom"), []) in
  let sched := map ARun ([Samples.X] ++ bad :: [Samples.X; Samples.Y])
               ++ [AResume] in
  maintask (exec sched r) = Failed attribute_error ∧
  effects (exec sched r) = effects r ++ map EvCall ([Samples.X] ++ [bad]) ∧
  tasks (exec sched r) = [Samples.X; Samples.Y] ∧
  logger (exec sched r) = logger r ∧
  effects (exec [AResume; ARun Samples.Y; AResume] (exec sched r))
  = effects r ++ map EvCall ([Samples.X] ++ [bad]).
Proof.
  apply (batch_aborted_by_failing_call
           (registerBatchHandler "X" Samples.H (__init__ [])) Samples.H
           [Samples.X] (Fn "X" (Raises "boom"), []) [Samples.X; Samples.Y]
           "boom" [AResume; ARun Samples.Y; AResume]); try reflexivity.
  repeat constructor.
Defined.

End BatchedRunnerMore.

Section FacadeMore.

Import DocumentBatchedOrderedRunner.

Implicit Types (store : list OrderedRunner.t) (calls : list facade_call).

Lemma facade_run_lookup (c : facade_call) store u r :
  store !! u = Some r →
  run c.1.1 c.1.2 c.2 store !! u
  = Some (if decide (docRunner c.1.1 = u)
          then OrderedRunner.run (wrapped c).1 (wrapped c).2 r else r).
Proof.
  intros Hr. unfold run, wrapped.
  destruct (batchHandler c.1.1 !! __name__ c.1.2) as [h|];
    (case_decide as Hd;
     [rewrite Hd, list_lookup_alter_eq, Hr
     |rewrite list_lookup_alter_ne by done]); done.
Qed.

Lemma facade_runs_lookup calls : ∀ store u r,
  store !! u = Some r →
  facade_runs calls store !! u
  = Some (if calls_on u calls is [] then r
          else OrderedRunner.set_syncEvent true
                 (OrderedRunner.set_tasks
                    (OrderedRunner.tasks r ++ map wrapped (calls_on u calls))
                    r)).
Proof.
  induction calls as [|c calls IH]; intros store u r Hr; [done|].
  change (facade_runs (c :: calls) store)
    with (facade_runs calls (run c.1.1 c.1.2 c.2 store)).
  rewrite (IH _ u _ (facade_run_lookup c store u r Hr)).
  unfold calls_on. rewrite filter_cons. case_decide as Hd; [|done].
  fold (calls_on u calls). unfold OrderedRunner.run.
  rewrite <- (surjective_pairing (wrapped c)).
  destruct (calls_on u calls) as [|c' m]; [done|].
  unfold OrderedRunner.set_syncEvent, OrderedRunner.set_tasks. simpl.
  by rewrite <- app_assoc.
Qed.

(** X9.  Calls made through any number of facades, in any interleaving:
    the queue of a shared runner gains, in call order, exactly the entries
    of the calls made through its own facades, [queued] shows their names,
    and the main task, the effects and the log of the runner are not
    touched. *)
Theorem facades_keep_call_order calls store u r :
  store !! u = Some r →
  ∃ r', facade_runs calls store !! u = Some r' ∧
        OrderedRunner.tasks r'
        = OrderedRunner.tasks r ++ map wrapped (calls_on u calls) ∧
        OrderedRunner.queued r'
        = OrderedRunner.queued r
          ++ map (fun c => __name__ (wrapped c).1) (calls_on u calls) ∧
        OrderedRunner.maintask r' = OrderedRunner.maintask r ∧
        OrderedRunner.effects r' = OrderedRunner.effects r ∧
        OrderedRunner.logger r' = OrderedRunner.logger r.
Proof.
  intros Hr. eexists. split; [by apply facade_runs_lookup|].
  unfold OrderedRunner.queued.
  destruct (calls_on u calls) as [|c m]; simpl.
  - by rewrite !app_nil_r.
  - rewrite map_app. simpl. by rewrite map_map.
Qed.

Lemma facades_keep_call_order_witness :
  let a := registerBatchHandler "X" Samples.H (__init__ 0) in
  let b := __init__ 0 in
  let other := __init__ 1 in
  let calls := [(a, Samples.X.1, Samples.X.2); (other, Samples.f.1, []);
                (b, Samples.X.1, Samples.X.2)] in
  let store := [OrderedRunner.__init__ []; OrderedRunner.__init__ []] in
  ∃ r', facade_runs calls store !! 0 = Some r' ∧
        OrderedRunner.tasks r'
        = [] ++ map wrapped (calls_on 0 calls) ∧
        OrderedRunner.queued r'
        = [] ++ map (fun c => __name__ (wrapped c).1) (calls_on 0 calls) ∧
        OrderedRunner.maintask r' = OrderedRunner.Created ∧
        OrderedRunner.effects r' = [] ∧
        OrderedRunner.logger r' = [].
Proof.
  apply (facades_keep_call_order
           [(registerBatchHandler "X" Samples.H (__init__ 0),
             Samples.X.1, Samples.X.2);
            (__init__ 1, Samples.f.1, []);
            (__init__ 0, Samples.X.1, Samples.X.2)]
           [OrderedRunner.__init__ []; OrderedRunner.__init__ []] 0
           (OrderedRunner.__init__ [])).
  reflexivity.
Defined.

Lemma blocks_of_wrapped calls :
  flat_map block (map wrapped calls)
  = flat_map (fun c => block (wrapped c)) calls.
Proof. induction calls as [|c calls IH]; simpl; by rewrite ?IH. Qed.

(** X10.  Calls made through facades of one fresh OrderedRunner, whose
    entries all complete: draining the runner executes one entry per call,
    in call order.  Each call whose name has a handler in its facade is a
    wrapper of its own, so its handler is awaited once per call: the
    facade does not collapse neighbouring calls into one handler await as
    BatchedOrderedRunner does. *)
Theorem facade_calls_drain_one_by_one fuel sink calls store u :
  store !! u = Some (OrderedRunner.__init__ sink) →
  Forall (fun c => docRunner c.1.1 = u) calls →
  Forall (fun c => returns (wrapped c)) calls →
  ∃ r1 r',
    facade_runs calls store !! u = Some r1 ∧
    OrderedRunner.exec fuel
      (replicate (S (length calls)) OrderedRunner.AResume) r1 = Some r' ∧
    OrderedRunner.effects r' = flat_map (fun c => block (wrapped c)) calls ∧
    OrderedRunner.tasks r' = [].
Proof.
  intros Hr Hon Hret.
  assert (Hall : calls_on u calls = calls).
  { unfold calls_on. clear Hret.
    induction calls as [|c calls IH]; [done|].
    apply Forall_cons in Hon as [Hc Hon]. rewrite filter_cons.
    by rewrite decide_True, IH. }
  eexists. 
  destruct (drain_queue fuel (map wrapped calls)
              (if calls is [] then OrderedRunner.__init__ sink
               else OrderedRunner.set_syncEvent true
                      (OrderedRunner.set_tasks (map wrapped calls)
                         (OrderedRunner.__init__ sink))))
    as (r' & Hex & Heff & Ht & _).
  { by destruct calls. }
  { unfold wake_inv. destruct calls; simpl; [done|]. by split. }
  { by destruct calls. }
  { by apply Forall_map. }
  exists r'. split.
  { rewrite (facade_runs_lookup calls store u _ Hr), Hall. done. }
  rewrite length_map in Hex. split; [exact Hex|]. split; [|done].
  rewrite Heff, blocks_of_wrapped. by destruct calls.
Qed.

Lemma facade_calls_drain_one_by_one_witness :
  let a := registerBatchHandler "X" Samples.H (__init__ 0) in
  let calls := [(a, Samples.X.1, Samples.X.2); (a, Samples.X.1, Samples.X.2);
                (a, Samples.X.1, Samples.X.2)] in
  ∃ r1 r',
    facade_runs calls [OrderedRunner.__init__ []] !! 0 = Some r1 ∧
    OrderedRunner.exec 0 (replicate 4 OrderedRunner.AResume) r1 = Some r' ∧
    OrderedRunner.effects r' = flat_map (fun c => block (wrapped c)) calls ∧
    OrderedRunner.tasks r' = [].
Proof.
  apply (facade_calls_drain_one_by_one 0 []
           (let a := registerBatchHandler "X" Samples.H (__init__ 0) in
            [(a, Samples.X.1, Samples.X.2); (a, Samples.X.1, Samples.X.2);
             (a, Samples.X.1, Samples.X.2)])
           [OrderedRunner.__init__ []] 0).
  - reflexivity.
  - repeat constructor.
  - repeat constructor.
Defined.

(** X, X, X through a facade with H registered for X, on an OrderedRunner:
    H is awaited three times (compare [batching_collapse]). *)
Example facade_does_not_collapse :
  let a := registerBatchHandler "X" Samples.H (__init__ 0) in
  flat_map (fun c => block (wrapped c))
    [(a, Samples.X.1, Samples.X.2); (a, Samples.X.1, Samples.X.2)]
  = [EvAwait (Wrapper Samples.X.1 Samples.H, Samples.X.2); EvCall Samples.X;
     EvAwait (Samples.H, []); EvReturn (Samples.H, []);
     EvReturn (Wrapper Samples.X.1 Samples.H, Samples.X.2);
     EvAwait (Wrapper Samples.X.1 Samples.H, Samples.X.2); EvCall Samples.X;
     EvAwait (Samples.H, []); EvReturn (Samples.H, []);
     EvReturn (Wrapper Samples.X.1 Samples.H, Samples.X.2)].
Proof. reflexivity. Qed.

End FacadeMore.

Section DocumentRunnerMore.

Import DocumentRunner.

Implicit Types (w : DocumentRunner.t) (reqs : list request).

Lemma get_keeps ro k l w :
  (∀ ro' k' u, registry ro' w !! k' = Some u →
               registry ro' (get ro k l w).1 !! k' = Some u) ∧
  (∀ u r, store w !! u = Some r → store (get ro k l w).1 !! u = Some r) ∧
  (∀ f fc, facades w !! f = Some fc →
           facades (get ro k l w).1 !! f = Some fc).
Proof.
  split; [|split].
  - intros ro' k' u Hu. rewrite get_registry. case_decide as Hd; [|done].
    destruct Hd as [-> ->]. by rewrite Hu.
  - intros u r Hu. rewrite get_store. by apply lookup_app_l_Some.
  - intros f fc Hf. destruct (get_facade ro k l w) as [_ ->].
    by apply lookup_app_l_Some.
Qed.

(** X11.  Nothing a request does is ever undone or replaced by later
    requests: a registry entry keeps leading to the same runner, a runner
    in the store stays as it is (in particular it keeps the logger of the
    request that created it, whatever logger later requests pass), and a
    facade handed out keeps its runner. *)
Theorem registry_is_permanent reqs w :
  (∀ ro k u, registry ro w !! k = Some u →
             registry ro (gets reqs w).1 !! k = Some u) ∧
  (∀ u r, store w !! u = Some r → store (gets reqs w).1 !! u = Some r) ∧
  (∀ f u, underlying w f = Some u → underlying (gets reqs w).1 f = Some u).
Proof.
  revert w. induction reqs as [|[[ro k] l] reqs IH]; intros w; [done|].
  cbn [gets]. destruct (get ro k l w) as [w1 f1] eqn:Hget.
  destruct (gets reqs w1) as [w2 fs] eqn:Hgets. simpl.
  pose proof (get_keeps ro k l w) as (Hreg & Hst & Hfc).
  rewrite Hget in Hreg, Hst, Hfc. simpl in *.
  specialize (IH w1). rewrite Hgets in IH. simpl in IH.
  destruct IH as (IHreg & IHst & IHfc). split; [|split].
  - intros ro' k' u Hu. by apply IHreg, Hreg.
  - intros u r Hu. by apply IHst, Hst.
  - intros f u Hu. apply IHfc. unfold underlying in *.
    destruct (facades w !! f) as [fc|] eqn:Hf; [|done].
    by rewrite (Hfc f fc Hf).
Qed.

Lemma registry_is_permanent_witness :
  store (gets [(Sender, "doc1", ["second"]); (Receiver, "doc1", ["third"])]
              (getSenderRunner "doc1" ["first"] empty).1).1 !! 0
  = Some (OrderedRunner.__init__ ["first"]).
Proof.
  apply (proj1 (proj2 (registry_is_permanent
                         [(Sender, "doc1", ["second"]);
                          (Receiver, "doc1", ["third"])]
                         (getSenderRunner "doc1" ["first"] empty).1))).
  reflexivity.
Defined.

Lemma get_sizes ro k l w :
  length (store (get ro k l w).1) + size (__sender w) + size (__receiver w)
  = length (store w) + size (__sender (get ro k l w).1)
    + size (__receiver (get ro k l w).1) ∧
  length (facades (get ro k l w).1) = S (length (facades w)).
Proof.
  destruct (registry ro w !! k) as [u|] eqn:Hu.
  - rewrite (get_known ro k l w u Hu). simpl. rewrite length_app. simpl. lia.
  - rewrite (get_new ro k l w Hu). simpl. rewrite !length_app. simpl.
    destruct ro; simpl in *; rewrite map_size_insert_None by done; lia.
Qed.

(** X12.  After any sequence of requests the store holds exactly one
    runner per registry entry, senders and receivers together, and one
    facade per request; the facade references returned are 0, 1, 2, ... in
    request order. *)
Theorem registry_counts reqs w fs :
  gets reqs empty = (w, fs) →
  length (store w) = size (__sender w) + size (__receiver w) ∧
  length (facades w) = length reqs ∧
  fs = seq 0 (length reqs).
Proof.
  revert w fs. induction reqs as [|[[ro k] l] reqs IH] using rev_ind;
    intros w fs Hgets.
  - injection Hgets as <- <-. done.
  - rewrite gets_snoc in Hgets.
    destruct (gets reqs empty) as [w0 fs0]. simpl in Hgets.
    destruct (IH w0 fs0 eq_refl) as (Hs & Hf & Hfs).
    injection Hgets as <- <-.
    destruct (get_sizes ro k l w0) as [Hsz Hfc].
    destruct (get_facade ro k l w0) as [Hnew _].
    rewrite length_app. simpl. split; [lia|]. split; [lia|].
    rewrite Nat.add_1_r, seq_S. simpl. by rewrite Hnew, Hf, Hfs.
Qed.

Lemma registry_counts_witness :
  let reqs := [(Sender, "doc1", []); (Sender, "doc1", []);
               (Receiver, "doc1", []); (Sender, "doc2", [])] in
  length (store (gets reqs empty).1)
  = size (__sender (gets reqs empty).1) + size (__receiver (gets reqs empty).1)
  ∧ length (facades (gets reqs empty).1) = length reqs
  ∧ (gets reqs empty).2 = seq 0 (length reqs).
Proof.
  apply (registry_counts
           [(Sender, "doc1", []); (Sender, "doc1", []);
            (Receiver, "doc1", []); (Sender, "doc2", [])]).
  reflexivity.
Defined.

End DocumentRunnerMore.

Section SyncerMore.

Import AcknowledgeSyncer.

Lemma excecute_keeps_latch s : event s = true → event (excecute s) = true.
Proof. unfold excecute. simpl. intros ->. by case_decide. Qed.

(** X13.  From any state of an AcknowledgeSyncer: every excecute call
    lowers the counter by one, also below zero, and never suspends; and the
    latch, once asserted, stays asserted whatever follows. *)
Theorem acknowledge_latch_is_monotone sched s :
  count (exec sched s) = (count s - Z.of_nat (executions sched))%Z ∧
  (event s = true → event (exec sched s) = true).
Proof.
  induction sched as [|a sched [IHc IHe]] using rev_ind.
  - unfold executions. simpl. split; [lia|done].
  - rewrite exec_snoc, executions_snoc. destruct a; cbn [step].
    + split; [unfold excecute; simpl; rewrite IHc; lia|]. intros He.
      by apply excecute_keeps_latch, IHe.
    + rewrite IHc. simpl. split; [lia|done].
Qed.

Lemma acknowledge_latch_is_monotone_witness :
  event (exec [AExcecute; AExcecute; AIdle; AExcecute]
              (exec [AExcecute] (__init__ 1))) = true.
Proof.
  apply (proj2 (acknowledge_latch_is_monotone
                  [AExcecute; AExcecute; AIdle; AExcecute]
                  (exec [AExcecute] (__init__ 1)))).
  reflexivity.
Defined.

End SyncerMore.

Section AcknowledgeBlockFacts.

Import AcknowledgeBlockSyncer.

Implicit Types (s : AcknowledgeBlockSyncer.t) (cs : list nat).

Lemma executes_components cs : ∀ s,
  Acknowledge (exec (map AExcecute cs) s)
  = AcknowledgeSyncer.exec (replicate (length cs) AcknowledgeSyncer.AExcecute)
      (Acknowledge s) ∧
  Block (exec (map AExcecute cs) s)
  = BlockSyncer.exec (map BlockSyncer.AExcecute cs) (Block s).
Proof.
  induction cs as [|c cs IH]; intros s; [done|].
  change (exec (map AExcecute (c :: cs)) s)
    with (exec (map AExcecute cs) (excecute c s)).
  destruct (IH (excecute c s)) as [-> ->]. done.
Qed.

Lemma executions_replicate n :
  AcknowledgeSyncer.executions (replicate n AcknowledgeSyncer.AExcecute) = n.
Proof.
  unfold AcknowledgeSyncer.executions.
  induction n as [|n IH]; [done|]. cbn [replicate]. rewrite filter_cons.
  rewrite decide_True by done. simpl. by rewrite IH.
Qed.

Lemma callers_executes cs : callers (map BlockSyncer.AExcecute cs) = cs.
Proof. induction cs as [|c cs IH]; [done|]. simpl. by rewrite IH. Qed.

Lemma executes_not_restarted cs : ¬ restarted (map BlockSyncer.AExcecute cs).
Proof.
  intros [H|H]; apply list_elem_of_fmap in H as (c & Hc & _); discriminate.
Qed.

(** X14.  An AcknowledgeBlockSyncer built for [n] runners, executed by the
    callers [cs] and not yet restarted: every caller is held in the block
    step and none has returned; the acknowledge latch is asserted exactly
    when at least [n] callers, and at least one, have executed, and from
    then on [wait] returns at once; [restart] then releases all callers,
    in the order they arrived, and leaves the acknowledge part alone. *)
Theorem acknowledge_block_rendezvous n cs :
  BlockSyncer.suspended (Block (exec (map AExcecute cs) (__init__ n))) = cs ∧
  BlockSyncer.returned (Block (exec (map AExcecute cs) (__init__ n))) = [] ∧
  (AcknowledgeSyncer.event
     (Acknowledge (exec (map AExcecute cs) (__init__ n))) = true
   ↔ (n ≤ Z.of_nat (length cs))%Z ∧ 1 ≤ length cs) ∧
  ((n ≤ Z.of_nat (length cs))%Z ∧ 1 ≤ length cs →
   ∀ sched, wait sched (exec (map AExcecute cs) (__init__ n))
            = (AcknowledgeSyncer.Returned,
               exec (map AExcecute cs) (__init__ n))) ∧
  BlockSyncer.returned
    (Block (restart (exec (map AExcecute cs) (__init__ n)))) = cs ∧
  BlockSyncer.suspended
    (Block (restart (exec (map AExcecute cs) (__init__ n)))) = [] ∧
  Acknowledge (restart (exec (map AExcecute cs) (__init__ n)))
  = Acknowledge (exec (map AExcecute cs) (__init__ n)).
Proof.
  destruct (executes_components cs (__init__ n)) as [Ha Hb].
  pose proof (history (map BlockSyncer.AExcecute cs)) as Hh. cbn zeta in Hh.
  destruct Hh as [(_ & Hl & Hs & Hr)|(Hre & _)];
    [|by destruct (executes_not_restarted cs)].
  rewrite callers_executes in Hs.
  pose proof (latch_after n
                (replicate (length cs) AcknowledgeSyncer.AExcecute))
    as [_ Hev].
  rewrite executions_replicate in Hev.
  assert (Hlatch : AcknowledgeSyncer.event
            (Acknowledge (exec (map AExcecute cs) (__init__ n))) = true
          ↔ (n ≤ Z.of_nat (length cs))%Z ∧ 1 ≤ length cs).
  { by rewrite Ha. }
  split; [by rewrite Hb|]. split; [by rewrite Hb|].
  split; [exact Hlatch|]. split.
  { intros Hn sched. apply Hlatch in Hn. unfold wait. simpl.
    by rewrite Hn. }
  unfold restart. simpl. rewrite Hb.
  unfold BlockSyncer.restart, BlockSyncer.suspended in *. simpl.
  by rewrite Hr, Hs.
Qed.

Lemma acknowledge_block_rendezvous_witness :
  wait [AIdle; ARestart] (exec (map AExcecute [7; 8; 9]) (__init__ 3))
  = (AcknowledgeSyncer.Returned, exec (map AExcecute [7; 8; 9]) (__init__ 3)).
Proof.
  apply (proj1 (proj2 (proj2 (proj2
           (acknowledge_block_rendezvous 3 [7; 8; 9]))))).
  split; simpl; lia.
Defined.

End AcknowledgeBlockFacts.

Section DocumentHandlerFacts.

Import DocumentHandler.

Implicit Types (s : DocumentHandler.t) (l : list docmap) (d : docmap).

Lemma find_docmap_app key val l1 l2 :
  misses key val l1 →
  find_docmap key val (l1 ++ l2) = find_docmap key val l2.
Proof.
  induction l1 as [|d l1 IH]; intros Hm; [done|].
  apply Forall_cons in Hm as [(v & Hv & Hne) Hm]. simpl.
  rewrite Hv, decide_False by done. by apply IH.
Qed.

Lemma find_docmap_ok key val l d :
  find_docmap key val l = Ok d →
  ∃ l1 l2, l = l1 ++ d :: l2 ∧ item key d = Some val ∧ misses key val l1.
Proof.
  induction l as [|x l IH]; [done|]. simpl.
  destruct (item key x) as [v|] eqn:Hv; [|done].
  case_decide as Hd.
  - intros [= <-]. exists [], l. subst v. by split; [|split; [|constructor]].
  - intros Hf. destruct (IH Hf) as (l1 & l2 & -> & Hi & Hm).
    exists (x :: l1), l2. split; [done|]. split; [done|].
    constructor; [by exists v|done].
Qed.

Lemma find_docmap_none key val l :
  find_docmap key val l = Raise NoSuchDocument ↔ misses key val l.
Proof.
  induction l as [|x l IH]; simpl.
  - split; [constructor|done].
  - destruct (item key x) as [v|] eqn:Hv.
    + case_decide as Hd.
      * split; [done|]. intros Hm.
        apply Forall_cons in Hm as [(v' & Hv' & Hne) _]. congruence.
      * rewrite IH. split.
        -- intros Hm. constructor; [by exists v|done].
        -- intros Hm. by apply Forall_cons in Hm as [_ Hm].
    + split; [done|]. intros Hm.
      apply Forall_cons in Hm as [(v' & Hv' & _) _]. congruence.
Qed.

Lemma find_docmap_keyerror key val l k :
  find_docmap key val l = Raise (KeyError k) →
  k = key ∧ ∃ l1 d l2, l = l1 ++ d :: l2 ∧ item key d = None ∧
                       misses key val l1.
Proof.
  induction l as [|x l IH]; [done|]. simpl.
  destruct (item key x) as [v|] eqn:Hv.
  - case_decide as Hd; [done|]. intros Hf.
    destruct (IH Hf) as (-> & l1 & d & l2 & -> & Hi & Hm).
    split; [done|]. exists (x :: l1), d, l2. split; [done|]. split; [done|].
    constructor; [by exists v|done].
  - intros [= <-]. split; [done|]. exists [], x, l.
    by split; [|split; [|constructor]].
Qed.

(** X15.  getDocMap answers with the first docmap, in list order, whose
    value under [key] equals [val].  It raises 'no such document found'
    exactly when every docmap has the key and none has that value, in
    particular on the empty list and on the empty dict; a docmap without
    the key, met before any match, makes it raise KeyError instead. *)
Theorem getDocMap_first_match key val s :
  (∀ d, getDocMap key val s = Ok d
        ↔ ∃ l1 l2, entries (documents s) = l1 ++ d :: l2 ∧
                   item key d = Some val ∧ misses key val l1) ∧
  (getDocMap key val s = Raise NoSuchDocument
   ↔ misses key val (entries (documents s))) ∧
  (∀ k, getDocMap key val s = Raise (KeyError k)
        ↔ k = key ∧ ∃ l1 d l2, entries (documents s) = l1 ++ d :: l2 ∧
                               item key d = None ∧ misses key val l1).
Proof.
  unfold getDocMap. split; [|split].
  - intros d. split; [apply find_docmap_ok|].
    intros (l1 & l2 & -> & Hi & Hm). rewrite find_docmap_app by done.
    simpl. by rewrite Hi, decide_True.
  - apply find_docmap_none.
  - intros k. split; [apply find_docmap_keyerror|].
    intros (-> & l1 & d & l2 & -> & Hi & Hm).
    rewrite find_docmap_app by done. simpl. by rewrite Hi.
Qed.

Lemma getDocMap_first_match_witness :
  let a := mkdoc ONone (OStr "local") ONone (ORef 1) in
  let b := mkdoc (OStr "id7") (OStr "shared") (ORef 5) (ORef 2) in
  let c := mkdoc (OStr "id9") (OStr "shared") (ORef 6) (ORef 2) in
  getDocMap "fcdoc" (ORef 2)
    (mk (DocList [a; b; c]) [] None None false [] [] []) = Ok b.
Proof.
  apply (proj1 (getDocMap_first_match "fcdoc" (ORef 2) _)).
  eexists [_], [_]. split; [reflexivity|]. split; [reflexivity|].
  constructor; [|constructor]. eexists. split; [reflexivity|discriminate].
Defined.

Lemma item_fcdoc d : item "fcdoc" d = Some (fcdoc d).
Proof. reflexivity. Qed.

Lemma misses_fcdoc val l :
  misses "fcdoc" val l ↔ Forall (fun d => fcdoc d ≠ val) l.
Proof.
  unfold misses. apply Forall_proper; [|done]. intros d. split.
  - intros (v & Hv & Hne). rewrite item_fcdoc in Hv. congruence.
  - intros Hne. by exists (fcdoc d).
Qed.

Lemma find_docmap_fcdoc_cases val l :
  (∃ d, find_docmap "fcdoc" val l = Ok d) ∨
  find_docmap "fcdoc" val l = Raise NoSuchDocument.
Proof.
  induction l as [|x l IH]; [by right|]. cbn [find_docmap].
  rewrite item_fcdoc. case_decide; [left; by eexists|exact IH].
Qed.

Lemma find_online_snoc val l x :
  onlinedoc x = ONone → find_online val (l ++ [x]) = find_online val l.
Proof.
  intros Hx. induction l as [|y l IH]; simpl.
  - by case_decide.
  - by case_decide.
Qed.

Lemma remove_first_found d l1 l2 :
  Forall (fun d' => fcdoc d' ≠ fcdoc d) l1 →
  remove_first d (l1 ++ d :: l2) = l1 ++ l2.
Proof.
  induction l1 as [|x l1 IH]; intros Hm; simpl.
  - by rewrite decide_True.
  - apply Forall_cons in Hm as [Hx Hm].
    rewrite decide_False by (intros ->; done). by rewrite IH.
Qed.

(** X16.  openFCDocument with a connection, the observer not blocked and
    the documents still a list: the call appends one local docmap for the
    document and invokes every update callback once, in registration
    order.  Afterwards getDocMap finds a docmap for the document: the one
    that was already first in the list if there was one, the new one
    otherwise.  What getOnlineDocument answers does not change for any
    document. *)
Theorem open_then_lookup doc s con l :
  connection s = Some con → blockObserver s = false →
  documents s = DocList l →
  ∃ s', openFCDocument doc s = Ok s' ∧
        documents s'
        = DocList (l ++ [mkdoc ONone (OStr "local") ONone (ORef doc)]) ∧
        called s' = called s ++ updatefuncs s ∧
        getDocMap "fcdoc" (ORef doc) s'
        = Ok (match getDocMap "fcdoc" (ORef doc) s with
              | Ok d => d
              | Raise _ => mkdoc ONone (OStr "local") ONone (ORef doc)
              end) ∧
        ∀ arg, getOnlineDocument arg s' = getOnlineDocument arg s.
Proof.
  intros Hc Hb Hd. unfold openFCDocument. rewrite Hc, Hb, Hd.
  eexists. split; [done|]. split; [done|]. split; [done|]. split.
  - unfold getDocMap. simpl. rewrite Hd. simpl.
    destruct (find_docmap_fcdoc_cases (ORef doc) l) as [[d Hf]|Hf].
    + rewrite Hf. destruct (find_docmap_ok _ _ _ _ Hf)
        as (l1 & l2 & -> & Hi & Hm).
      rewrite <- app_assoc, find_docmap_app by done.
      cbn [app find_docmap]. by rewrite Hi, decide_True.
    + rewrite Hf. apply find_docmap_none in Hf.
      rewrite find_docmap_app by done. cbn [find_docmap].
      by rewrite item_fcdoc, decide_True.
  - intros arg. unfold getOnlineDocument. simpl. rewrite Hd. simpl.
    by apply find_online_snoc.
Qed.

Lemma open_then_lookup_witness :
  let known := mkdoc (OStr "id7") (OStr "shared") (ORef 5) (ORef 2) in
  let s := mk (DocList [known]) [10; 11] (Some 0) (Some 0) false [] [] [] in
  ∃ s', openFCDocument 2 s = Ok s' ∧
        documents s'
        = DocList ([known] ++ [mkdoc ONone (OStr "local") ONone (ORef 2)]) ∧
        called s' = [] ++ [10; 11] ∧
        getDocMap "fcdoc" (ORef 2) s'
        = Ok (match getDocMap "fcdoc" (ORef 2) s with
              | Ok d => d
              | Raise _ => mkdoc ONone (OStr "local") ONone (ORef 2)
              end) ∧
        ∀ arg, getOnlineDocument arg s' = getOnlineDocument arg s.
Proof.
  apply (open_then_lookup 2
           (mk (DocList [mkdoc (OStr "id7") (OStr "shared") (ORef 5) (ORef 2)])
               [10; 11] (Some 0) (Some 0) false [] [] []) 0); reflexivity.
Defined.

(** X17.  asyncCloseDoc for a document getDocMap finds: the list loses
    exactly the docmap found, the first one for that document, also when
    equal docmaps follow it, and keeps the others in order.  Whether the
    awaited calls return or raise the update callbacks are invoked once;
    when one of them never completes the docmap is gone all the same and
    no callback has been invoked.  The call never raises. *)
Theorem close_removes_the_found_docmap doc s d unload call :
  getDocMap "fcdoc" (ORef doc) s = Ok d →
  ∃ l1 l2,
    entries (documents s) = l1 ++ d :: l2 ∧
    Forall (fun d' => fcdoc d' ≠ ORef doc) l1 ∧
    match asyncCloseDoc doc unload call s with
    | Finished (Ok s') =>
        documents s' = DocList (l1 ++ l2) ∧
        called s' = called s ++ updatefuncs s
    | Finished (Raise _) => False
    | Pending s' =>
        documents s' = DocList (l1 ++ l2) ∧ called s' = called s
    end.
Proof.
  intros Hg. pose proof Hg as Hg'. unfold getDocMap in Hg'.
  destruct (find_docmap_ok _ _ _ _ Hg') as (l1 & l2 & Hl & Hi & Hm).
  exists l1, l2. rewrite item_fcdoc in Hi. injection Hi as Hi.
  apply misses_fcdoc in Hm. split; [done|]. split; [done|].
  unfold asyncCloseDoc. rewrite Hg, Hl.
  rewrite remove_first_found by by rewrite Hi.
  by destruct (disconnect d unload call _).
Qed.

Lemma close_removes_the_found_docmap_witness :
  let a := mkdoc ONone (OStr "local") ONone (ORef 1) in
  let b := mkdoc ONone (OStr "local") ONone (ORef 2) in
  let s := mk (DocList [a; b; b]) [10] (Some 0) (Some 0) false [] [] [] in
  ∃ l1 l2,
    entries (documents s) = l1 ++ b :: l2 ∧
    Forall (fun d' => fcdoc d' ≠ ORef 2) l1 ∧
    match asyncCloseDoc 2 Returns Returns s with
    | Finished (Ok s') =>
        documents s' = DocList (l1 ++ l2) ∧
        called s' = called s ++ updatefuncs s
    | Finished (Raise _) => False
    | Pending s' =>
        documents s' = DocList (l1 ++ l2) ∧ called s' = called s
    end.
Proof.
  apply (close_removes_the_found_docmap 2
           (mk (DocList [mkdoc ONone (OStr "local") ONone (ORef 1);
                         mkdoc ONone (OStr "local") ONone (ORef 2);
                         mkdoc ONone (OStr "local") ONone (ORef 2)])
               [10] (Some 0) (Some 0) false [] [] [])).
  reflexivity.
Defined.

(** X18.  Opening a document the handler does not know and closing it
    again gives back the list of docmaps as it was.  The new docmap is
    local, so the close makes no call to the other modules and finishes
    whatever those calls would do; the update callbacks have been invoked
    twice and the only line printed is the one of openFCDocument. *)
Theorem open_close_round_trip doc s con l unload call :
  connection s = Some con → blockObserver s = false →
  documents s = DocList l →
  Forall (fun d => fcdoc d ≠ ORef doc) l →
  ∃ s1 s2,
    openFCDocument doc s = Ok s1 ∧
    asyncCloseDoc doc unload call s1 = Finished (Ok s2) ∧
    documents s2 = documents s ∧
    called s2 = called s ++ updatefuncs s ++ updatefuncs s ∧
    stdout s2 = stdout s ++ ["Call update!"].
Proof.
  intros Hc Hb Hd Hnew. unfold openFCDocument. rewrite Hc, Hb, Hd.
  eexists _, _. split; [done|]. unfold asyncCloseDoc, getDocMap. simpl.
  rewrite find_docmap_app by by apply misses_fcdoc.
  cbn [find_docmap]. rewrite item_fcdoc, decide_True by done.
  rewrite (remove_first_found _ l []) by done.
  split; [reflexivity|]. simpl. rewrite app_nil_r.
  split; [done|]. by rewrite <- app_assoc.
Qed.

Lemma open_close_round_trip_witness :
  let known := mkdoc (OStr "id7") (OStr "shared") (ORef 5) (ORef 2) in
  let s := mk (DocList [known]) [10] (Some 0) (Some 0) false [] [] [] in
  ∃ s1 s2,
    openFCDocument 3 s = Ok s1 ∧
    asyncCloseDoc 3 Hangs (Raises "offline") s1 = Finished (Ok s2) ∧
    documents s2 = documents s ∧
    called s2 = called s ++ updatefuncs s ++ updatefuncs s ∧
    stdout s2 = stdout s ++ ["Call update!"].
Proof.
  apply (open_close_round_trip 3
           (mk (DocList [mkdoc (OStr "id7") (OStr "shared") (ORef 5) (ORef 2)])
               [10] (Some 0) (Some 0) false [] [] []) 0
           [mkdoc (OStr "id7") (OStr "shared") (ORef 5) (ORef 2)]);
    try reflexivity.
  repeat constructor. discriminate.
Defined.

Lemma apply_keeps_dict o s :
  documents s = DocDict → documents (apply o s) = DocDict.
Proof.
  intros Hd. destruct o as [con| |func|doc|doc|doc unload call]; simpl;
    try done.
  - unfold openFCDocument. destruct (connection s); [|done].
    destruct (blockObserver s); [done|]. by rewrite Hd.
  - unfold closeFCDocument. destruct (connection s); [|done].
    by destruct (blockObserver s).
  - unfold asyncCloseDoc, getDocMap. by rewrite Hd.
Qed.

(** X19.  removeConnection replaces the list of docmaps by an empty dict
    and no operation of the handler puts a list back.  So after a
    disconnect, whatever is done next: getDocMap raises 'no such document
    found', getOnlineDocument answers None, and as soon as a connection is
    set again and the observer is not blocked every openFCDocument raises
    AttributeError, the dict having no [append]. *)
Theorem disconnect_loses_the_document_list ops s :
  documents (applies ops (removeConnection s)) = DocDict ∧
  (∀ key val,
     getDocMap key val (applies ops (removeConnection s))
     = Raise NoSuchDocument) ∧
  (∀ arg, getOnlineDocument arg (applies ops (removeConnection s)) = ONone) ∧
  (∀ doc,
     connection (applies ops (removeConnection s)) ≠ None →
     blockObserver (applies ops (removeConnection s)) = false →
     openFCDocument doc (applies ops (removeConnection s))
     = Raise (AttributeError "'dict' object has no attribute 'append'")).
Proof.
  assert (Hd : documents (applies ops (removeConnection s)) = DocDict).
  { assert (H : ∀ s0, documents s0 = DocDict →
                      documents (applies ops s0) = DocDict).
    { induction ops as [|o ops IH]; intros s0 H0; [done|].
      apply (IH (apply o s0)). by apply apply_keeps_dict. }
    by apply H. }
  split; [done|]. split; [|split].
  - intros key val. unfold getDocMap. by rewrite Hd.
  - intros arg. unfold getOnlineDocument. by rewrite Hd.
  - intros doc Hc Hb. unfold openFCDocument.
    destruct (connection _); [|done]. by rewrite Hb, Hd.
Qed.

Lemma disconnect_loses_the_document_list_witness :
  openFCDocument 4
    (applies [OpSetConnection 1; OpAddUpdateFunc 10]
       (removeConnection
          (mk (DocList []) [] (Some 0) (Some 0) false [] [] [])))
  = Raise (AttributeError "'dict' object has no attribute 'append'").
Proof.
  apply (proj2 (proj2 (proj2 (disconnect_loses_the_document_list
           [OpSetConnection 1; OpAddUpdateFunc 10]
           (mk (DocList []) [] (Some 0) (Some 0) false [] [] []))))).
  - discriminate.
  - reflexivity.
Defined.

End DocumentHandlerFacts.
